(** * Structural columns: Euler buckling and factored axial resistance

    A shallow embedding of [structural_columns/columns.py] and of the
    height sweep of [sample_app_module.py].

    Numbers.  Python [float] arithmetic is read over the real numbers
    [R], with the effects of binary64 that change the outcome of these
    functions written out: [x ** y] raises [OverflowError] when its
    result leaves the float range and gives [0.0] when the result
    underflows, and [1 + x] gives [1.0] when [x] is below half an ulp of
    [1.0].  The embedding keeps every operation, its order of evaluation
    and every exception Python raises (division by zero, [math.sqrt] of a
    negative number, [0.0 ** negative], overflow of a power).  The
    rounding of the other operations and the silent overflow of [*] and
    [/] to an infinity are not modelled: the theorems that promise a
    value of the Euler load or of the capacity assume magnitudes between
    [2^-32] and [2^32], where neither changes whether a call returns.  Heights produced by [range] are Python [int]s
    and are modelled in [Z].

    Exceptions are values of [result]: a computation either yields [Ok v]
    or [Raise e], and [Raise] is propagated by the bind, in the order in
    which Python evaluates the sub-expressions. *)

From Stdlib Require Import Reals Lra ZArith Lia List Ascii Sorted.
From stdpp Require Import gmap strings fin_maps.
Import ListNotations.

Local Open Scope R_scope.

(** ** Outcomes of a Python evaluation *)

Inductive exn : Type :=
| ZeroDivisionError   (* [x / 0], [0.0 ** y] with [y < 0] *)
| ValueError          (* [math.sqrt] of a negative number, [range] with step 0 *)
| UnboundLocalError   (* reading a local name no branch has assigned *)
| OverflowError       (* [x ** y] with a result beyond the float range *)
| ComplexResult.      (* not an exception: a negative float raised to a
                         fractional power evaluates to a [complex]; the
                         real-valued embedding stops there *)

Inductive result (A : Type) : Type :=
| Ok (a : A)
| Raise (e : exn).

Arguments Ok {A} a.
Arguments Raise {A} e.

(** Sequencing: [x ← m; k] runs [m] and, unless it raised, continues
    with [k]. *)
#[export] Instance result_bind : MBind result := fun A B k m =>
  match m with
  | Ok a => k a
  | Raise e => Raise e
  end.

(** [ys = [f(x) for x in xs]] where [f] may raise: the first exception
    aborts the loop. *)
Fixpoint mapM {A B : Type} (f : A -> result B) (xs : list A) : result (list B) :=
  match xs with
  | [] => Ok []
  | x :: xs' => y ← f x; ys ← mapM f xs'; Ok (y :: ys)
  end.

(** ** Python's arithmetic on real arguments *)

(** The range of binary64: a result of magnitude [2^1024] or more is
    beyond the largest float, one of magnitude [2^-1075] or less rounds
    to zero, and [2^-53] is half an ulp of [1.0]. *)
Definition float_huge : R := 2 ^ 1024.
Definition float_tiny : R := / 2 ^ 1075.
Definition float_half_ulp : R := / 2 ^ 53.

(** [x / y] *)
Definition py_div (x y : R) : result R :=
  if Req_dec_T y 0 then Raise ZeroDivisionError else Ok (x / y).

(** [math.sqrt(x)] *)
Definition py_sqrt (x : R) : result R :=
  if Rlt_dec x 0 then Raise ValueError else Ok (sqrt x).

(** What [**] makes of the exact power [r]: [OverflowError] beyond the
    float range, [0.0] on underflow. *)
Definition pow_range (r : R) : result R :=
  if Rle_dec float_huge (Rabs r) then Raise OverflowError
  else if Rle_dec (Rabs r) float_tiny then Ok 0
  else Ok r.

(** [x ** y] on floats. *)
Definition py_pow (x y : R) : result R :=
  if Req_dec_T y 0 then Ok 1
  else if Req_dec_T x 0 then
         if Rlt_dec y 0 then Raise ZeroDivisionError else Ok 0
  else if Rlt_dec 0 x then pow_range (Rpower x y)
  else if Req_dec_T y (IZR (Int_part y)) then pow_range (powerRZ x (Int_part y))
  else Raise ComplexResult.

(** [1 + x]: the sum is [1.0] again when [x] is at most half an ulp. *)
Definition float_add_one (x : R) : R :=
  if Rle_dec (Rabs x) float_half_ulp then 1 else 1 + x.

(** [min(a, b)]: the first argument unless the second is smaller. *)
Definition py_min (a b : R) : R := if Rlt_dec b a then b else a.

(** [max(xs)] for a non-empty list with head [x0]: the running maximum is
    replaced only by a strictly larger item. *)
Definition py_max (x0 : R) (xs : list R) : R :=
  fold_left (fun m x => if Rlt_dec m x then x else m) xs x0.

(** ** columns.py: free functions *)

(** [radius_of_gyration(I, A)]: [sqrt(I / A)] *)
Definition radius_of_gyration (I A : R) : result R :=
  q ← py_div I A; py_sqrt q.

(** [eulerbucklingload(E, I, k, L)]: [(pi**2 * E * I) / (k * L**2)].  The
    numerator is evaluated first and cannot raise ([pi**2] is the
    constant 9.8696...); [L**2] can overflow, and underflows to [0.0]
    for a tiny [L]. *)
Definition eulerbucklingload (E I k L : R) : result R :=
  L2 ← py_pow L 2;
  py_div (PI ^ 2 * E * I) (k * L2).

(** The default of the keyword argument [phi]. *)
Definition phi_default : R := 0.9.

(** [factored_axial_capacity(area, I_x, I_y, k_x, k_y, L, E, f_y, n, phi)] *)
Definition factored_axial_capacity
    (area I_x I_y k_x k_y L E f_y n phi : R) : result R :=
  P_E_x ← eulerbucklingload E I_x k_x L;
  F_e_x ← py_div P_E_x area;
  P_E_y ← eulerbucklingload E I_y k_y L;
  F_e_y ← py_div P_E_y area;
  let F_e := py_min F_e_x F_e_y in
  q ← py_div f_y F_e;
  lamb ← py_sqrt q;
  a ← py_pow lamb (2 * n);
  e ← py_div (-1) n;
  b ← py_pow (float_add_one a) e;
  Ok (phi * area * f_y * b).

(** ** columns.py: [Load] *)

Module Load.
Record t : Type := mk { D : R; L : R; S : R; W : R; E : R }.
End Load.

(** [max_factored_load(load)]: the list of four combinations, then [max]. *)
Definition factored_loads (load : Load.t) : list R :=
  [ 1.4 * Load.D load;
    1.25 * Load.D load + 1.5 * Load.L load;
    1.25 * Load.D load + 1.5 * Load.L load + 1.0 * Load.S load;
    1.25 * Load.D load + 1.5 * Load.S load + 1.0 * Load.L load ].

Definition max_factored_load (load : Load.t) : R :=
  match factored_loads load with
  | [] => 0 (* not reached: the list literal has four items *)
  | x0 :: xs => py_max x0 xs
  end.

(** ** [str.lower] on the ASCII range *)

Definition lower_char (c : ascii) : ascii :=
  let k := nat_of_ascii c in
  if ((65 <=? k)%nat && (k <=? 90)%nat)%bool then ascii_of_nat (k + 32) else c.

Fixpoint lower (s : string) : string :=
  match s with
  | EmptyString => EmptyString
  | String c s' => String (lower_char c) (lower s')
  end.

(** [return r] for a local name [r]: an unassigned name cannot be read. *)
Definition read_local {A : Type} (r : option A) : result A :=
  match r with
  | Some v => Ok v
  | None => Raise UnboundLocalError
  end.

(** ** columns.py: [Column] *)

Module Column.
Record t : Type :=
  mk { height : R; area : R; Ix : R; Iy : R; kx : R; ky : R; E : R }.

(** [self.height = h] *)
Definition set_height (self : t) (h : R) : t :=
  mk h (area self) (Ix self) (Iy self) (kx self) (ky self) (E self).

(** The [if]/[elif] of [Column.radius_of_gyration]: the local [r] after
    it, [None] when neither branch ran. *)
Definition radius_of_gyration_branches (self : t) (axis : string)
  : result (option R) :=
  if String.eqb (lower axis) "x" then
    r ← radius_of_gyration (Ix self) (area self); Ok (Some r)
  else if String.eqb (lower axis) "y" then
    r ← radius_of_gyration (Iy self) (area self); Ok (Some r)
  else Ok None.

Definition radius_of_gyration (self : t) (axis : string) : result R :=
  r ← radius_of_gyration_branches self axis; read_local r.

(** The [if]/[elif] of [Column.euler_buckling_load] and the local [P_E]
    after it. *)
Definition euler_buckling_load_branches (self : t) (axis : string)
  : result (option R) :=
  if String.eqb (lower axis) "x" then
    P_E ← eulerbucklingload (E self) (Ix self) (kx self) (height self);
    Ok (Some P_E)
  else if String.eqb (lower axis) "y" then
    P_E ← eulerbucklingload (E self) (Iy self) (ky self) (height self);
    Ok (Some P_E)
  else Ok None.

Definition euler_buckling_load (self : t) (axis : string) : result R :=
  P_E ← euler_buckling_load_branches self axis; read_local P_E.
End Column.

(** ** columns.py: [SteelColumn(Column)] *)

Module SteelColumn.
Record t : Type :=
  mk { base : Column.t;       (* the inherited [Column] fields *)
       column_tag : string;
       fy : R;
       axial_loads : Load.t;
       phi : R }.

(** [self.height = h] *)
Definition set_height (self : t) (h : R) : t :=
  mk (Column.set_height (base self) h)
     (column_tag self) (fy self) (axial_loads self) (phi self).

Definition factored_axial_load (self : t) : R :=
  max_factored_load (axial_loads self).

(** The call passes nine positional arguments, so [phi] takes the
    default of the free function, whatever [self.phi] holds. *)
Definition factored_axial_capacity (self : t) (n : R) : result R :=
  factored_axial_capacity
    (Column.area (base self)) (Column.Ix (base self)) (Column.Iy (base self))
    (Column.kx (base self)) (Column.ky (base self))
    (Column.height (base self)) (Column.E (base self)) (fy self) n
    phi_default.

(** [self.factored_axial_load() / self.factored_axial_capacity(n)]: the
    left operand is evaluated first and cannot raise. *)
Definition factored_dcr (self : t) (n : R) : result R :=
  let load := factored_axial_load self in
  capacity ← factored_axial_capacity self n;
  py_div load capacity.
End SteelColumn.

(** ** [range] on integers *)

(** The number of items of [range(start, stop, step)], [step] not 0. *)
Definition range_length (start stop step : Z) : Z :=
  if (0 <? step)%Z then
    if (start <? stop)%Z then ((stop - start - 1) / step + 1)%Z else 0%Z
  else
    if (stop <? start)%Z then ((start - stop - 1) / (- step) + 1)%Z else 0%Z.

Fixpoint range_items (start step : Z) (count : nat) : list Z :=
  match count with
  | O => []
  | S count' => start :: range_items (start + step) step count'
  end.

(** [list(range(start, stop, step))] *)
Definition py_range (start stop step : Z) : result (list Z) :=
  if (step =? 0)%Z then Raise ValueError
  else Ok (range_items start step (Z.to_nat (range_length start stop step))).

(** ** sample_app_module.py: the height sweep *)

(** The [for] loop of [column_pr_over_height_range]: one column object,
    its height overwritten at every step, and the list [y_values] grown
    by [append].  The height is an [int] here: [L**2] is then an exact
    [int], converted to [float] at the division, where Python raises
    [OverflowError] when [L**2] is beyond the float range; this is the
    case in which [py_pow] raises it on [IZR x_value], and a non-zero
    [int] has a square of at least 1, which does not underflow. *)
Fixpoint sweep_loop (test_column : SteelColumn.t) (y_values : list R)
    (x_values : list Z) : result (SteelColumn.t * list R) :=
  match x_values with
  | [] => Ok (test_column, y_values)
  | x_value :: rest =>
      let test_column := SteelColumn.set_height test_column (IZR x_value) in
      pr ← SteelColumn.factored_axial_capacity test_column 1.34;
      sweep_loop test_column (y_values ++ [pr]) rest
  end.

Definition column_pr_over_height_range
    (min_height max_height interval : Z) (column_tag : string)
    (area i_x i_y E fy : R) : result (list Z * list R) :=
  x_values ← py_range min_height max_height interval;
  let test_column :=
    SteelColumn.mk
      (Column.mk (IZR min_height) area i_x i_y 1 1 E)
      column_tag fy (Load.mk 0 0 0 0 0) phi_default in
  '(_, y_values) ← sweep_loop test_column [] x_values;
  Ok (x_values, y_values).

(** [compare_two_columns]: two sweeps, then the dict literal
    [{"a": ..., "b": ...}]. *)
Definition compare_two_columns
    (min_height max_height interval : Z)
    (area_a i_x_a i_y_a E_a fy_a area_b i_x_b i_y_b E_b fy_b : R)
    : result (gmap string (list Z * list R)) :=
  '(x_values_a, y_values_a) ←
     column_pr_over_height_range min_height max_height interval
       "Column A" area_a i_x_a i_y_a E_a fy_a;
  '(x_values_b, y_values_b) ←
     column_pr_over_height_range min_height max_height interval
       "Column B" area_b i_x_b i_y_b E_b fy_b;
  Ok (<["b" := (x_values_b, y_values_b)]>
        (<["a" := (x_values_a, y_values_a)]> ∅)).


(** * Properties *)

(** ** The arithmetic primitives *)

Lemma bind_Ok {A B : Type} (a : A) (k : A -> result B) :
  (Ok a ≫= k) = k a.
Proof. reflexivity. Qed.

Lemma bind_Raise {A B : Type} (e : exn) (k : A -> result B) :
  (Raise e ≫= k) = Raise e.
Proof. reflexivity. Qed.

Lemma py_div_ok (x y : R) : y <> 0 -> py_div x y = Ok (x / y).
Proof. intros Hy. unfold py_div. destruct (Req_dec_T y 0); [contradiction | reflexivity]. Qed.

Lemma py_div_zero (x : R) : py_div x 0 = Raise ZeroDivisionError.
Proof. unfold py_div. destruct (Req_dec_T 0 0); [reflexivity | contradiction]. Qed.

Lemma py_sqrt_ok (x : R) : 0 <= x -> py_sqrt x = Ok (sqrt x).
Proof. intros Hx. unfold py_sqrt. destruct (Rlt_dec x 0); [lra | reflexivity]. Qed.

Lemma py_sqrt_neg (x : R) : x < 0 -> py_sqrt x = Raise ValueError.
Proof. intros Hx. unfold py_sqrt. destruct (Rlt_dec x 0); [reflexivity | lra]. Qed.

Lemma py_min_Rmin (a b : R) : py_min a b = Rmin a b.
Proof.
  unfold py_min, Rmin.
  destruct (Rlt_dec b a), (Rle_dec a b); try reflexivity; lra.
Qed.

Lemma py_max_cons (x0 x : R) (xs : list R) :
  py_max x0 (x :: xs) = py_max (Rmax x0 x) xs.
Proof.
  unfold py_max. simpl. f_equal.
  unfold Rmax. destruct (Rlt_dec x0 x), (Rle_dec x0 x); try reflexivity; lra.
Qed.

(** ** Magnitudes and the float range *)

Lemma pow2_pos (k : nat) : 0 < 2 ^ k.
Proof. apply pow_lt. lra. Qed.

Lemma pow2_le (k k' : nat) : (k <= k')%nat -> 2 ^ k <= 2 ^ k'.
Proof. intros H. apply Rle_pow; [lra | exact H]. Qed.

Lemma pow2_lt (k k' : nat) : (k < k')%nat -> 2 ^ k < 2 ^ k'.
Proof. intros H. apply Rlt_pow; [lra | exact H]. Qed.

Lemma pow2_ge_1 (k : nat) : 1 <= 2 ^ k.
Proof. rewrite <- (pow_O 2). apply pow2_le. lia. Qed.

Lemma inv_pow2_le (k k' : nat) : (k <= k')%nat -> / 2 ^ k' <= / 2 ^ k.
Proof.
  intros H. apply Rinv_le_contravar; [apply pow2_pos | apply pow2_le; exact H].
Qed.

Lemma inv_pow2_lt (k k' : nat) : (k < k')%nat -> / 2 ^ k' < / 2 ^ k.
Proof.
  intros H. apply Rinv_lt_contravar; [| apply pow2_lt; exact H].
  apply Rmult_lt_0_compat; apply pow2_pos.
Qed.

Lemma inv_pow2_le_1 (k : nat) : / 2 ^ k <= 1.
Proof.
  apply Rle_trans with (/ 1); [| rewrite Rinv_1; lra].
  apply Rinv_le_contravar; [lra | apply pow2_ge_1].
Qed.

(** [in_range k x]: the magnitude of [x] lies between [2^-k] and [2^k]. *)
Definition in_range (k : nat) (x : R) : Prop :=
  / 2 ^ k <= Rabs x <= 2 ^ k.

Lemma in_range_pos_abs (k : nat) (x : R) : in_range k x -> 0 < Rabs x.
Proof.
  intros [Hlo _]. pose proof (Rinv_0_lt_compat _ (pow2_pos k)). lra.
Qed.

Lemma in_range_nonzero (k : nat) (x : R) : in_range k x -> x <> 0.
Proof.
  intros H ->. apply in_range_pos_abs in H. rewrite Rabs_R0 in H. lra.
Qed.

Lemma in_range_weaken (k k' : nat) (x : R) :
  (k <= k')%nat -> in_range k x -> in_range k' x.
Proof.
  intros Hk [Hlo Hhi]. split.
  - eapply Rle_trans; [apply inv_pow2_le; exact Hk | exact Hlo].
  - eapply Rle_trans; [exact Hhi | apply pow2_le; exact Hk].
Qed.

Lemma in_range_mult (a b : nat) (x y : R) :
  in_range a x -> in_range b y -> in_range (a + b) (x * y).
Proof.
  intros [Hxl Hxh] [Hyl Hyh]. unfold in_range.
  rewrite Rabs_mult, pow_add, Rinv_mult.
  pose proof (Rinv_0_lt_compat _ (pow2_pos a)).
  pose proof (Rinv_0_lt_compat _ (pow2_pos b)).
  split; apply Rmult_le_compat; lra.
Qed.

Lemma in_range_inv (a : nat) (x : R) : in_range a x -> in_range a (/ x).
Proof.
  intros H. pose proof (in_range_pos_abs _ _ H) as Hpos.
  destruct H as [Hl Hh]. unfold in_range. rewrite Rabs_inv. split.
  - apply Rinv_le_contravar; assumption.
  - rewrite <- (Rinv_inv (2 ^ a)).
    apply Rinv_le_contravar; [apply Rinv_0_lt_compat, pow2_pos | assumption].
Qed.

Lemma in_range_div (a b : nat) (x y : R) :
  in_range a x -> in_range b y -> in_range (a + b) (x / y).
Proof.
  intros Hx Hy. apply in_range_mult; [exact Hx | apply in_range_inv; exact Hy].
Qed.

Lemma in_range_opp (a : nat) (x : R) : in_range a x -> in_range a (- x).
Proof. unfold in_range. rewrite Rabs_Ropp. tauto. Qed.

Lemma in_range_square (a : nat) (x : R) : in_range a x -> in_range (a + a) (x ^ 2).
Proof.
  intros H. replace (x ^ 2) with (x * x) by ring. apply in_range_mult; exact H.
Qed.

Lemma in_range_Rmin (a : nat) (x y : R) :
  in_range a x -> in_range a y -> in_range a (Rmin x y).
Proof. intros Hx Hy. apply Rmin_case; assumption. Qed.

Lemma in_range_one (k : nat) : in_range k 1.
Proof.
  unfold in_range. rewrite Rabs_R1. split; [apply inv_pow2_le_1 | apply pow2_ge_1].
Qed.

Lemma in_range_PI2 : in_range 4 (PI ^ 2).
Proof.
  pose proof PI2_3_2 as Hlo. pose proof PI_4 as Hhi.
  unfold in_range. rewrite Rabs_pos_eq by (apply pow_le; lra).
  split.
  - apply Rle_trans with 1; [apply inv_pow2_le_1 | nra].
  - replace (2 ^ 4) with 16 by (simpl; lra). nra.
Qed.

Lemma in_range_sqrt (a : nat) (x : R) :
  0 <= x -> in_range (a + a) x -> in_range a (sqrt x).
Proof.
  intros Hx [Hl Hh]. rewrite Rabs_pos_eq in Hl, Hh by assumption.
  unfold in_range. rewrite Rabs_pos_eq by apply sqrt_pos.
  pose proof (pow2_pos a) as Hp.
  assert (Hsq : 2 ^ (a + a) = (2 ^ a) ^ 2) by (rewrite pow_add; ring).
  split.
  - rewrite <- (sqrt_pow2 (/ 2 ^ a)) by (left; apply Rinv_0_lt_compat, Hp).
    apply sqrt_le_1_alt. rewrite pow_inv, <- Hsq. exact Hl.
  - rewrite <- (sqrt_pow2 (2 ^ a)) by lra.
    apply sqrt_le_1_alt. rewrite <- Hsq. exact Hh.
Qed.

Lemma ln_le (x y : R) : 0 < x -> x <= y -> ln x <= ln y.
Proof.
  intros Hx [Hlt | ->]; [left; apply ln_increasing; assumption | right; reflexivity].
Qed.

Lemma exp_le (x y : R) : x <= y -> exp x <= exp y.
Proof.
  intros [Hlt | ->]; [left; apply exp_increasing; assumption | right; reflexivity].
Qed.

Lemma exp_ln2_pow (j : nat) : exp (INR j * ln 2) = 2 ^ j.
Proof.
  change (exp (INR j * ln 2)) with (Rpower 2 (INR j)).
  apply Rpower_pow. lra.
Qed.

(** A power of a positive base in range, with an exponent of magnitude
    at most [m], stays in range. *)
Lemma in_range_Rpower (a m : nat) (x y : R) :
  0 < x -> in_range a x -> Rabs y <= INR m ->
  in_range (a * m) (Rpower x y).
Proof.
  intros Hx [Hl Hh] Hy. rewrite Rabs_pos_eq in Hl, Hh by lra.
  pose proof (pow2_pos a) as Hp.
  assert (Hln2 : 0 < ln 2) by (pose proof ln_lt_2; lra).
  assert (Hlnh : ln x <= INR a * ln 2).
  { rewrite <- ln_pow by lra. apply ln_le; assumption. }
  assert (Hlnl : - (INR a * ln 2) <= ln x).
  { rewrite <- ln_pow, <- ln_Rinv by lra.
    apply ln_le; [apply Rinv_0_lt_compat, Hp | assumption]. }
  pose proof (pos_INR a) as Ha. pose proof (pos_INR m) as Hm.
  assert (Hy' : - INR m <= y <= INR m).
  { pose proof (Rle_abs y) as H1. pose proof (Rle_abs (- y)) as H2.
    rewrite Rabs_Ropp in H2. lra. }
  clear Hy. rename Hy' into Hy.
  assert (Hbound : - (INR (a * m) * ln 2) <= y * ln x <= INR (a * m) * ln 2).
  { rewrite mult_INR.
    set (t := ln x) in *. set (K := INR a * ln 2) in *.
    assert (HK : 0 <= K) by (unfold K; nra).
    replace (INR a * INR m * ln 2) with (INR m * K) by (unfold K; ring).
    destruct Hy as [Hy1 Hy2]. split; nra. }
  unfold in_range. rewrite Rabs_pos_eq by (left; apply exp_pos).
  unfold Rpower. split.
  - rewrite <- exp_ln2_pow, <- exp_Ropp. apply exp_le. lra.
  - rewrite <- exp_ln2_pow. apply exp_le. lra.
Qed.

Lemma float_tiny_lt (k : nat) : (k <= 1074)%nat -> float_tiny < / 2 ^ k.
Proof. intros H. unfold float_tiny. apply inv_pow2_lt. lia. Qed.

Lemma float_huge_gt (k : nat) : (k <= 1023)%nat -> 2 ^ k < float_huge.
Proof. intros H. unfold float_huge. apply pow2_lt. lia. Qed.

Lemma pow_range_ok (r : R) :
  float_tiny < Rabs r -> Rabs r < float_huge -> pow_range r = Ok r.
Proof.
  intros Hl Hh. unfold pow_range.
  destruct (Rle_dec float_huge (Rabs r)); [lra |].
  destruct (Rle_dec (Rabs r) float_tiny); [lra | reflexivity].
Qed.

Lemma pow_range_in_range (k : nat) (r : R) :
  (k <= 1023)%nat -> in_range k r -> pow_range r = Ok r.
Proof.
  intros Hk [Hl Hh]. apply pow_range_ok.
  - eapply Rlt_le_trans; [apply (float_tiny_lt k); lia | exact Hl].
  - eapply Rle_lt_trans; [exact Hh | apply float_huge_gt; exact Hk].
Qed.

Lemma pow_range_overflow (r : R) :
  float_huge <= Rabs r -> pow_range r = Raise OverflowError.
Proof.
  intros H. unfold pow_range.
  destruct (Rle_dec float_huge (Rabs r)); [reflexivity | contradiction].
Qed.

Lemma float_tiny_lt_huge : float_tiny < float_huge.
Proof.
  apply Rlt_trans with 1.
  - unfold float_tiny. apply Rlt_le_trans with (/ 2 ^ 0); [| simpl; lra].
    apply inv_pow2_lt. lia.
  - unfold float_huge. rewrite <- (pow_O 2). apply pow2_lt. lia.
Qed.

Lemma pow_range_underflow (r : R) :
  Rabs r <= float_tiny -> pow_range r = Ok 0.
Proof.
  intros H. pose proof float_tiny_lt_huge. unfold pow_range.
  destruct (Rle_dec float_huge (Rabs r)); [lra |].
  destruct (Rle_dec (Rabs r) float_tiny); [reflexivity | contradiction].
Qed.

Lemma pow_range_one : pow_range 1 = Ok 1.
Proof. apply (pow_range_in_range 0); [lia | apply in_range_one]. Qed.

(** ** Powers *)

Lemma py_pow_pos (x y : R) : 0 < x -> py_pow x y = pow_range (Rpower x y).
Proof.
  intros Hx. unfold py_pow.
  destruct (Req_dec_T y 0) as [-> | Hy].
  - rewrite Rpower_O by assumption. symmetry. apply pow_range_one.
  - destruct (Req_dec_T x 0); [lra |].
    destruct (Rlt_dec 0 x); [reflexivity | lra].
Qed.

Lemma py_pow_exp_zero (x y : R) : y = 0 -> py_pow x y = Ok 1.
Proof. intros Hy. unfold py_pow. destruct (Req_dec_T y 0); [reflexivity | contradiction]. Qed.

Lemma py_pow_zero_base (y : R) : 0 < y -> py_pow 0 y = Ok 0.
Proof.
  intros Hy. unfold py_pow.
  destruct (Req_dec_T y 0); [lra |].
  destruct (Req_dec_T 0 0); [| contradiction].
  destruct (Rlt_dec y 0); [lra | reflexivity].
Qed.

Lemma py_pow_zero_base_negative (y : R) :
  y < 0 -> py_pow 0 y = Raise ZeroDivisionError.
Proof.
  intros Hy. unfold py_pow.
  destruct (Req_dec_T y 0); [lra |].
  destruct (Req_dec_T 0 0); [| contradiction].
  destruct (Rlt_dec y 0); [reflexivity | lra].
Qed.

(** [L ** 2]: zero for [L = 0], else the square within the float range. *)
Lemma py_pow_square (L : R) :
  py_pow L 2 = if Req_dec_T L 0 then Ok 0 else pow_range (L ^ 2).
Proof.
  destruct (Req_dec_T L 0) as [-> | HL]; [apply py_pow_zero_base; lra |].
  unfold py_pow.
  destruct (Req_dec_T 2 0); [lra |].
  destruct (Req_dec_T L 0); [contradiction |].
  assert (H2 : INR 2 = 2) by (simpl; lra).
  destruct (Rlt_dec 0 L) as [Hpos | Hneg].
  - rewrite <- H2, Rpower_pow by assumption. reflexivity.
  - assert (Hint : Int_part 2 = 2%Z).
    { rewrite <- H2 at 1. rewrite Int_part_INR. reflexivity. }
    rewrite Hint.
    destruct (Req_dec_T 2 (IZR 2)); [reflexivity | contradiction].
Qed.

Lemma py_pow_square_neg (L : R) : py_pow (- L) 2 = py_pow L 2.
Proof.
  rewrite !py_pow_square.
  replace ((- L) ^ 2) with (L ^ 2) by ring.
  destruct (Req_dec_T (- L) 0), (Req_dec_T L 0); try reflexivity; lra.
Qed.

Lemma py_pow_square_in_range (j : nat) (L : R) :
  (j <= 511)%nat -> in_range j L -> py_pow L 2 = Ok (L ^ 2).
Proof.
  intros Hj HL. rewrite py_pow_square.
  destruct (Req_dec_T L 0) as [H0 | _];
    [exfalso; exact (in_range_nonzero _ _ HL H0) |].
  apply (pow_range_in_range (j + j)); [lia | apply in_range_square; exact HL].
Qed.

Lemma pow2_split (j : nat) : 2 ^ (j + j) = (2 ^ j) ^ 2.
Proof. rewrite pow_add. ring. Qed.

Lemma py_pow_square_overflow (L : R) :
  2 ^ 512 <= Rabs L -> py_pow L 2 = Raise OverflowError.
Proof.
  intros HL. pose proof (pow2_pos 512) as Hp.
  rewrite py_pow_square.
  destruct (Req_dec_T L 0) as [-> | _]; [rewrite Rabs_R0 in HL; lra |].
  apply pow_range_overflow.
  unfold float_huge. change 1024%nat with (512 + 512)%nat.
  rewrite pow2_split, <- RPow_abs.
  apply pow_incr. lra.
Qed.

Lemma py_pow_square_underflow (L : R) :
  Rabs L <= / 2 ^ 538 -> py_pow L 2 = Ok 0.
Proof.
  intros HL. rewrite py_pow_square.
  destruct (Req_dec_T L 0) as [_ | _]; [reflexivity |].
  apply pow_range_underflow.
  apply Rle_trans with (/ 2 ^ (538 + 538)).
  - rewrite pow2_split, <- pow_inv, <- RPow_abs.
    apply pow_incr. split; [apply Rabs_pos | exact HL].
  - unfold float_tiny. apply inv_pow2_le. lia.
Qed.

(** ** The Euler load *)

Lemma eulerbucklingload_ok (j : nat) (E I k L : R) :
  k <> 0 -> (j <= 511)%nat -> in_range j L ->
  eulerbucklingload E I k L = Ok (PI ^ 2 * E * I / (k * L ^ 2)).
Proof.
  intros Hk Hj HL. unfold eulerbucklingload.
  rewrite (py_pow_square_in_range j) by assumption.
  rewrite bind_Ok. apply py_div_ok.
  apply Rmult_integral_contrapositive_currified; [assumption |].
  apply pow_nonzero. exact (in_range_nonzero _ _ HL).
Qed.

Lemma eulerbucklingload_zero_length (E I k : R) :
  eulerbucklingload E I k 0 = Raise ZeroDivisionError.
Proof.
  unfold eulerbucklingload. rewrite py_pow_zero_base by lra.
  rewrite bind_Ok, Rmult_0_r. apply py_div_zero.
Qed.

Lemma eulerbucklingload_overflow (E I k L : R) :
  2 ^ 512 <= Rabs L -> eulerbucklingload E I k L = Raise OverflowError.
Proof.
  intros HL. unfold eulerbucklingload.
  rewrite py_pow_square_overflow by assumption. reflexivity.
Qed.

Lemma eulerbucklingload_underflow (E I k L : R) :
  Rabs L <= / 2 ^ 538 -> eulerbucklingload E I k L = Raise ZeroDivisionError.
Proof.
  intros HL. unfold eulerbucklingload.
  rewrite py_pow_square_underflow by assumption.
  rewrite bind_Ok, Rmult_0_r. apply py_div_zero.
Qed.

(** Without overflow of [L ** 2] the only failure is a division by zero. *)
Lemma eulerbucklingload_cases (E I k L : R) :
  eulerbucklingload E I k L = Raise OverflowError \/
  eulerbucklingload E I k L = Raise ZeroDivisionError \/
  exists P_E, eulerbucklingload E I k L = Ok P_E.
Proof.
  unfold eulerbucklingload. rewrite py_pow_square.
  destruct (Req_dec_T L 0) as [_ | _].
  - right. rewrite bind_Ok. unfold py_div.
    destruct (Req_dec_T (k * 0) 0); [left | right; eexists]; reflexivity.
  - unfold pow_range.
    destruct (Rle_dec float_huge (Rabs (L ^ 2))); [left; reflexivity | right].
    destruct (Rle_dec (Rabs (L ^ 2)) float_tiny); rewrite bind_Ok; unfold py_div.
    + destruct (Req_dec_T (k * 0) 0); [left | right; eexists]; reflexivity.
    + destruct (Req_dec_T (k * L ^ 2) 0); [left | right; eexists]; reflexivity.
Qed.

Lemma eulerbucklingload_no_overflow (E I k L : R) :
  Rabs L < 2 ^ 512 -> eulerbucklingload E I k L <> Raise OverflowError.
Proof.
  intros HL. unfold eulerbucklingload. rewrite py_pow_square.
  destruct (Req_dec_T L 0) as [_ | _].
  - rewrite bind_Ok. unfold py_div. destruct (Req_dec_T _ 0); discriminate.
  - unfold pow_range.
    destruct (Rle_dec float_huge (Rabs (L ^ 2))) as [Hover | _].
    + exfalso. revert Hover. apply Rlt_not_le.
      unfold float_huge. change 1024%nat with (512 + 512)%nat.
      rewrite pow2_split, <- RPow_abs.
      pose proof (Rabs_pos L). simpl. nra.
    + destruct (Rle_dec _ float_tiny); rewrite bind_Ok; unfold py_div;
        destruct (Req_dec_T _ 0); discriminate.
Qed.

Lemma eulerbucklingload_zero_factor (E I L : R) :
  Rabs L < 2 ^ 512 -> eulerbucklingload E I 0 L = Raise ZeroDivisionError.
Proof.
  intros HL.
  destruct (eulerbucklingload_cases E I 0 L) as [H | [H | [P H]]].
  - exfalso. exact (eulerbucklingload_no_overflow _ _ _ _ HL H).
  - exact H.
  - exfalso. revert H. unfold eulerbucklingload.
    destruct (py_pow L 2) as [L2 | e]; [| discriminate].
    rewrite bind_Ok, Rmult_0_l, py_div_zero. discriminate.
Qed.

Lemma eulerbucklingload_neg (E I k L : R) :
  eulerbucklingload E I k (- L) = eulerbucklingload E I k L.
Proof. unfold eulerbucklingload. rewrite py_pow_square_neg. reflexivity. Qed.

(** ** The formula of [factored_axial_capacity] *)

(** The elastic buckling stress about one axis and the governing one, as
    the design clause writes them. *)
Definition buckling_stress (area I k L E : R) : R :=
  PI ^ 2 * E * I / (k * L ^ 2) / area.

Definition governing_stress (area I_x I_y k_x k_y L E : R) : R :=
  Rmin (buckling_stress area I_x k_x L E) (buckling_stress area I_y k_y L E).

Lemma PI2_pos : 0 < PI ^ 2.
Proof. apply pow_lt, PI_RGT_0. Qed.

Lemma governing_stress_unit : governing_stress 1 1 1 1 1 1 1 = PI ^ 2.
Proof.
  unfold governing_stress, buckling_stress.
  rewrite Rmin_left by lra. field.
Qed.

(** The first four statements: both stresses are computed whenever the
    area and the effective-length factors are not zero and [L ** 2] stays
    in the float range. *)
Lemma capacity_after_stresses (j : nat) (area I_x I_y k_x k_y L E f_y n phi : R) :
  area <> 0 -> k_x <> 0 -> k_y <> 0 -> (j <= 511)%nat -> in_range j L ->
  factored_axial_capacity area I_x I_y k_x k_y L E f_y n phi =
    (q ← py_div f_y (governing_stress area I_x I_y k_x k_y L E);
     lamb ← py_sqrt q;
     a ← py_pow lamb (2 * n);
     e ← py_div (-1) n;
     b ← py_pow (float_add_one a) e;
     Ok (phi * area * f_y * b)).
Proof.
  intros Ha Hkx Hky Hj HL. unfold factored_axial_capacity.
  rewrite !(eulerbucklingload_ok j) by assumption.
  rewrite bind_Ok, (py_div_ok _ area Ha), bind_Ok, bind_Ok.
  rewrite (py_div_ok _ area Ha), bind_Ok.
  cbv zeta. rewrite py_min_Rmin. reflexivity.
Qed.

Lemma buckling_stress_in_range (area I k L E : R) :
  in_range 32 area -> in_range 32 I -> in_range 32 k -> in_range 32 L ->
  in_range 32 E -> in_range 196 (buckling_stress area I k L E).
Proof.
  intros Ha HI Hk HL HE. unfold buckling_stress.
  apply (in_range_div 164 32); [| exact Ha].
  apply (in_range_div 68 96).
  - apply (in_range_mult 36 32); [| exact HI].
    apply (in_range_mult 4 32); [apply in_range_PI2 | exact HE].
  - apply (in_range_mult 32 64); [exact Hk |].
    apply (in_range_square 32). exact HL.
Qed.

Lemma float_add_one_bounds (a : R) : 0 <= a -> 1 <= float_add_one a <= 1 + a.
Proof.
  intros Ha. unfold float_add_one.
  destruct (Rle_dec (Rabs a) float_half_ulp); lra.
Qed.

Lemma float_add_one_monotone (a a' : R) :
  0 <= a -> a <= a' -> float_add_one a <= float_add_one a'.
Proof.
  intros Ha Hle. unfold float_add_one.
  rewrite !Rabs_pos_eq by lra.
  destruct (Rle_dec a float_half_ulp), (Rle_dec a' float_half_ulp); lra.
Qed.

Lemma float_add_one_in_range (k : nat) (a : R) :
  0 <= a -> a <= 2 ^ k -> in_range (S k) (float_add_one a).
Proof.
  intros Ha Hk. destruct (float_add_one_bounds a Ha) as [Hl Hh].
  unfold in_range. rewrite Rabs_pos_eq by lra. split.
  - apply Rle_trans with 1; [apply inv_pow2_le_1 | exact Hl].
  - pose proof (pow2_ge_1 k). simpl. lra.
Qed.

(** The result in the range where nothing overflows or underflows. *)
Lemma capacity_in_range (area I_x I_y k_x k_y L E f_y n phi : R) :
  let F_e := governing_stress area I_x I_y k_x k_y L E in
  let lamb := sqrt (f_y / F_e) in
  in_range 32 area -> in_range 32 I_x -> in_range 32 I_y ->
  in_range 32 k_x -> in_range 32 k_y -> in_range 32 L -> in_range 32 E ->
  in_range 32 f_y -> 1 <= Rabs n <= 4 -> 0 <= f_y / F_e ->
  factored_axial_capacity area I_x I_y k_x k_y L E f_y n phi =
    Ok (phi * area * f_y *
        Rpower (float_add_one (Rpower lamb (2 * n))) (-1 / n)) /\
  0 < lamb /\ 0 < Rpower (float_add_one (Rpower lamb (2 * n))) (-1 / n) /\
  in_range 913 (Rpower (float_add_one (Rpower lamb (2 * n))) (-1 / n)).
Proof.
  intros F_e lamb Ha Hix Hiy Hkx Hky HL HE Hfy Hn Hq.
  assert (HFe : in_range 196 F_e).
  { apply in_range_Rmin; apply buckling_stress_in_range; assumption. }
  assert (Hqr : in_range 228 (f_y / F_e)) by (apply (in_range_div 32 196); assumption).
  assert (Hqpos : 0 < f_y / F_e).
  { destruct Hq as [Hq | Hq]; [exact Hq |].
    exfalso. apply (in_range_nonzero _ _ Hqr). symmetry. exact Hq. }
  assert (Hlam : 0 < lamb) by (apply sqrt_lt_R0; exact Hqpos).
  assert (Hlamr : in_range 114 lamb).
  { apply (in_range_sqrt 114); [lra | exact Hqr]. }
  assert (Hn0 : n <> 0).
  { intros ->. rewrite Rabs_R0 in Hn. lra. }
  assert (H2n : Rabs (2 * n) <= INR 8).
  { rewrite Rabs_mult, (Rabs_pos_eq 2) by lra.
    replace (INR 8) with 8 by (simpl; lra). lra. }
  pose proof (in_range_Rpower 114 8 lamb (2 * n) Hlam Hlamr H2n) as Har.
  set (a := Rpower lamb (2 * n)) in *.
  assert (Hapos : 0 < a) by apply exp_pos.
  assert (Hbase : in_range 913 (float_add_one a)).
  { apply (float_add_one_in_range 912); [lra |].
    destruct Har as [_ Hh]. rewrite Rabs_pos_eq in Hh by lra. exact Hh. }
  assert (Hbpos : 0 < float_add_one a).
  { pose proof (float_add_one_bounds a ltac:(lra)). lra. }
  assert (He : Rabs (-1 / n) <= INR 1).
  { unfold Rdiv. rewrite Rabs_mult, (Rabs_left (-1)), Rabs_inv by lra.
    assert (Hi : / Rabs n <= / 1) by (apply Rinv_le_contravar; lra).
    rewrite Rinv_1 in Hi. simpl. lra. }
  pose proof (in_range_Rpower 913 1 _ (-1 / n) Hbpos Hbase He) as Hbr.
  set (b := Rpower (float_add_one a) (-1 / n)) in *.
  split; [| split; [exact Hlam | split; [apply exp_pos | exact Hbr]]].
  rewrite (capacity_after_stresses 32 area I_x I_y k_x k_y L E f_y n phi
             (in_range_nonzero _ _ Ha) (in_range_nonzero _ _ Hkx)
             (in_range_nonzero _ _ Hky) ltac:(lia) HL).
  fold F_e. rewrite (py_div_ok _ F_e (in_range_nonzero _ _ HFe)), bind_Ok.
  rewrite (py_sqrt_ok _ Hq), bind_Ok. fold lamb.
  rewrite (py_pow_pos lamb) by assumption. fold a.
  rewrite (pow_range_in_range 912) by (first [lia | exact Har]).
  rewrite bind_Ok, (py_div_ok _ n Hn0), bind_Ok.
  rewrite (py_pow_pos (float_add_one a)) by assumption. fold b.
  rewrite (pow_range_in_range 913) by (first [lia | exact Hbr]).
  reflexivity.
Qed.

(** C1 (as amended).  When [area], [Ix], [Iy], [kx], [ky], [L], [E], [fy]
    and [phi] have a magnitude between [2^-32] and [2^32], [n] has a
    magnitude between 1 and 4 and [fy / F_e] is not negative, where
    [F_e = min(F_ex, F_ey)], [factored_axial_capacity] returns
    [phi * area * fy * (1 + lambda^(2n))^(-1/n)] with
    [lambda = sqrt(fy / F_e)], the sum [1 + lambda^(2n)] being the float
    sum, which is [1] when [lambda^(2n)] is at most [2^-53]; the smaller
    of the two axis stresses governs, and [n] is not validated. *)
Theorem factored_axial_capacity_formula
    (area I_x I_y k_x k_y L E f_y n phi : R) :
  let P_E_x := PI ^ 2 * E * I_x / (k_x * L ^ 2) in
  let F_e_x := P_E_x / area in
  let P_E_y := PI ^ 2 * E * I_y / (k_y * L ^ 2) in
  let F_e_y := P_E_y / area in
  let F_e := Rmin F_e_x F_e_y in
  let lamb := sqrt (f_y / F_e) in
  in_range 32 area -> in_range 32 I_x -> in_range 32 I_y ->
  in_range 32 k_x -> in_range 32 k_y -> in_range 32 L -> in_range 32 E ->
  in_range 32 f_y -> in_range 32 phi ->
  1 <= Rabs n <= 4 -> 0 <= f_y / F_e ->
  factored_axial_capacity area I_x I_y k_x k_y L E f_y n phi =
    Ok (phi * area * f_y *
        Rpower (float_add_one (Rpower lamb (2 * n))) (-1 / n)).
Proof.
  intros P_E_x F_e_x P_E_y F_e_y F_e lamb
         Ha Hix Hiy Hkx Hky HL HE Hfy Hphi Hn Hq.
  apply capacity_in_range; assumption.
Qed.

Lemma factored_axial_capacity_formula_witness :
  factored_axial_capacity 1 1 1 1 1 1 1 1 1 1 =
    Ok (1 * 1 * 1 *
        Rpower
          (float_add_one
             (Rpower
                (sqrt (1 / Rmin (PI ^ 2 * 1 * 1 / (1 * 1 ^ 2) / 1)
                                (PI ^ 2 * 1 * 1 / (1 * 1 ^ 2) / 1)))
                (2 * 1)))
          (-1 / 1)).
Proof.
  pose proof PI2_pos as HPI.
  assert (HFe : Rmin (PI ^ 2 * 1 * 1 / (1 * 1 ^ 2) / 1)
                     (PI ^ 2 * 1 * 1 / (1 * 1 ^ 2) / 1) = PI ^ 2).
  { rewrite Rmin_left by lra. field. }
  apply (factored_axial_capacity_formula 1 1 1 1 1 1 1 1 1 1);
    try apply in_range_one.
  - rewrite Rabs_R1. lra.
  - cbv zeta. rewrite HFe. apply Rlt_le, Rdiv_lt_0_compat; lra.
Defined.

(** C1 (as stated) fails at [n = 0]: every listed quantity is non-zero,
    and the call raises at [-1 / n] instead of returning a value. *)
Lemma factored_axial_capacity_n_zero_raises :
  (1 <> 0 /\ governing_stress 1 1 1 1 1 1 1 <> 0) /\
  factored_axial_capacity 1 1 1 1 1 1 1 1 0 1 = Raise ZeroDivisionError.
Proof.
  pose proof PI2_pos as HPI.
  split.
  - split; [lra |]. rewrite governing_stress_unit. lra.
  - rewrite (capacity_after_stresses 0)
      by (first [lra | lia | apply in_range_one]).
    rewrite governing_stress_unit.
    rewrite (py_div_ok 1 (PI ^ 2)) by lra. rewrite bind_Ok.
    rewrite py_sqrt_ok by (apply Rlt_le, Rdiv_lt_0_compat; lra).
    rewrite bind_Ok.
    rewrite (py_pow_exp_zero _ (2 * 0)) by lra.
    rewrite bind_Ok, py_div_zero. reflexivity.
Qed.

(** ** Factored load and demand/capacity ratio *)

(** C2.  [factored_axial_load] is the maximum of [1.4 D],
    [1.25 D + 1.5 L], [1.25 D + 1.5 L + 1.0 S] and
    [1.25 D + 1.5 S + 1.0 L]: it is one of the four, no smaller than any
    of them, and replacing the [W] and [E] components of the load leaves
    it unchanged. *)
Theorem factored_axial_load_is_max (sc : SteelColumn.t) :
  let ld := SteelColumn.axial_loads sc in
  let c1 := 1.4 * Load.D ld in
  let c2 := 1.25 * Load.D ld + 1.5 * Load.L ld in
  let c3 := 1.25 * Load.D ld + 1.5 * Load.L ld + 1.0 * Load.S ld in
  let c4 := 1.25 * Load.D ld + 1.5 * Load.S ld + 1.0 * Load.L ld in
  let v := SteelColumn.factored_axial_load sc in
  v = Rmax (Rmax (Rmax c1 c2) c3) c4 /\
  (v = c1 \/ v = c2 \/ v = c3 \/ v = c4) /\
  (c1 <= v /\ c2 <= v /\ c3 <= v /\ c4 <= v) /\
  (forall w e : R,
     SteelColumn.factored_axial_load
       (SteelColumn.mk (SteelColumn.base sc) (SteelColumn.column_tag sc)
          (SteelColumn.fy sc)
          (Load.mk (Load.D ld) (Load.L ld) (Load.S ld) w e)
          (SteelColumn.phi sc)) = v).
Proof.
  intros ld c1 c2 c3 c4 v.
  assert (Hv : v = Rmax (Rmax (Rmax c1 c2) c3) c4).
  { unfold v, SteelColumn.factored_axial_load, max_factored_load, factored_loads.
    fold ld. fold c1 c2 c3 c4. rewrite !py_max_cons. reflexivity. }
  split; [exact Hv |]. split; [| split].
  - rewrite Hv. repeat apply Rmax_case; auto.
  - pose proof (Rmax_l c1 c2). pose proof (Rmax_r c1 c2).
    pose proof (Rmax_l (Rmax c1 c2) c3). pose proof (Rmax_r (Rmax c1 c2) c3).
    pose proof (Rmax_l (Rmax (Rmax c1 c2) c3) c4).
    pose proof (Rmax_r (Rmax (Rmax c1 c2) c3) c4).
    rewrite Hv. repeat split; lra.
  - intros w e. reflexivity.
Qed.

(** C7.  [factored_dcr(n)] is [factored_axial_load()] divided by
    [factored_axial_capacity(n)] whenever the capacity is a non-zero
    number; a capacity of zero is not special-cased and the division
    raises [ZeroDivisionError]; an exception of the capacity comes out
    unchanged. *)
Theorem factored_dcr_is_ratio (sc : SteelColumn.t) (n : R) :
  (forall c : R,
     SteelColumn.factored_axial_capacity sc n = Ok c -> c <> 0 ->
     SteelColumn.factored_dcr sc n =
       Ok (SteelColumn.factored_axial_load sc / c)) /\
  (SteelColumn.factored_axial_capacity sc n = Ok 0 ->
   SteelColumn.factored_dcr sc n = Raise ZeroDivisionError) /\
  (forall e : exn,
     SteelColumn.factored_axial_capacity sc n = Raise e ->
     SteelColumn.factored_dcr sc n = Raise e).
Proof.
  unfold SteelColumn.factored_dcr. cbv zeta. repeat split.
  - intros c Hc Hne. rewrite Hc, bind_Ok. apply py_div_ok. exact Hne.
  - intros Hc. rewrite Hc, bind_Ok. apply py_div_zero.
  - intros e Hc. rewrite Hc. reflexivity.
Qed.

(** ** Axis labels *)

Lemma lower_is_x (axis : string) :
  lower axis = "x"%string <-> axis = "x"%string \/ axis = "X"%string.
Proof.
  split.
  - destruct axis as [| c [| c' s]]; simpl; try discriminate.
    intros H. injection H as H.
    destruct c as [[] [] [] [] [] [] [] []]; vm_compute in H; try discriminate H; auto.
  - intros [-> | ->]; reflexivity.
Qed.

Lemma lower_is_y (axis : string) :
  lower axis = "y"%string <-> axis = "y"%string \/ axis = "Y"%string.
Proof.
  split.
  - destruct axis as [| c [| c' s]]; simpl; try discriminate.
    intros H. injection H as H.
    destruct c as [[] [] [] [] [] [] [] []]; vm_compute in H; try discriminate H; auto.
  - intros [-> | ->]; reflexivity.
Qed.

Lemma bind_Some_read_local {A : Type} (m : result A) :
  ((r ← m; Ok (Some r)) ≫= read_local) = m.
Proof. destruct m; reflexivity. Qed.

Lemma radius_of_gyration_dispatch (c : Column.t) (axis : string) :
  (lower axis = "x"%string ->
   Column.radius_of_gyration c axis =
     radius_of_gyration (Column.Ix c) (Column.area c)) /\
  (lower axis = "y"%string ->
   Column.radius_of_gyration c axis =
     radius_of_gyration (Column.Iy c) (Column.area c)).
Proof.
  unfold Column.radius_of_gyration, Column.radius_of_gyration_branches.
  split; intros ->; cbn [String.eqb Ascii.eqb Bool.eqb];
    apply bind_Some_read_local.
Qed.

Lemma euler_buckling_load_dispatch (c : Column.t) (axis : string) :
  (lower axis = "x"%string ->
   Column.euler_buckling_load c axis =
     eulerbucklingload (Column.E c) (Column.Ix c) (Column.kx c)
       (Column.height c)) /\
  (lower axis = "y"%string ->
   Column.euler_buckling_load c axis =
     eulerbucklingload (Column.E c) (Column.Iy c) (Column.ky c)
       (Column.height c)).
Proof.
  unfold Column.euler_buckling_load, Column.euler_buckling_load_branches.
  split; intros ->; cbn [String.eqb Ascii.eqb Bool.eqb];
    apply bind_Some_read_local.
Qed.


(** ** Positive magnitudes between [2^-32] and [2^32] *)

Definition in_box (x : R) : Prop := / 2 ^ 32 <= x <= 2 ^ 32.

Lemma in_box_pos (x : R) : in_box x -> 0 < x.
Proof.
  intros [Hl _]. pose proof (Rinv_0_lt_compat _ (pow2_pos 32)). lra.
Qed.

Lemma in_box_in_range (x : R) : in_box x -> in_range 32 x.
Proof.
  intros H. pose proof (in_box_pos x H).
  unfold in_range. rewrite Rabs_pos_eq by lra. exact H.
Qed.

Lemma in_box_one : in_box 1.
Proof. split; [apply inv_pow2_le_1 | apply pow2_ge_1]. Qed.

Lemma in_box_between (x : R) : / 65536 <= x <= 65536 -> in_box x.
Proof.
  intros [Hl Hh]. split.
  - eapply Rle_trans; [| exact Hl].
    replace 65536 with (2 ^ 16) by (simpl; lra). apply inv_pow2_le. lia.
  - eapply Rle_trans; [exact Hh |].
    replace 65536 with (2 ^ 16) by (simpl; lra). apply pow2_le. lia.
Qed.

Lemma in_box_abs (x : R) : in_box x -> Rabs x = x.
Proof. intros H. apply Rabs_pos_eq. left. exact (in_box_pos x H). Qed.

Lemma radius_of_gyration_ok (I A : R) :
  0 < I -> 0 < A -> radius_of_gyration I A = Ok (sqrt (I / A)).
Proof.
  intros HI HA. unfold radius_of_gyration.
  rewrite py_div_ok, bind_Ok by lra.
  apply py_sqrt_ok, Rlt_le, Rdiv_lt_0_compat; assumption.
Qed.

(** C8 (as amended).  For a column whose fields all lie between [2^-32]
    and [2^32] and an axis label that is ["x"] up to case,
    [radius_of_gyration] returns [sqrt(Ix / area)] and
    [euler_buckling_load] returns [pi^2 E Ix / (kx height^2)]; with ["y"]
    up to case, the same with [Iy] and [ky]. *)
Theorem column_axis_properties (c : Column.t) (axis : string) :
  in_box (Column.area c) -> in_box (Column.Ix c) -> in_box (Column.Iy c) ->
  in_box (Column.kx c) -> in_box (Column.ky c) -> in_box (Column.height c) ->
  in_box (Column.E c) ->
  (axis = "x"%string \/ axis = "X"%string ->
   Column.radius_of_gyration c axis =
     Ok (sqrt (Column.Ix c / Column.area c)) /\
   Column.euler_buckling_load c axis =
     Ok (PI ^ 2 * Column.E c * Column.Ix c /
         (Column.kx c * Column.height c ^ 2))) /\
  (axis = "y"%string \/ axis = "Y"%string ->
   Column.radius_of_gyration c axis =
     Ok (sqrt (Column.Iy c / Column.area c)) /\
   Column.euler_buckling_load c axis =
     Ok (PI ^ 2 * Column.E c * Column.Iy c /
         (Column.ky c * Column.height c ^ 2))).
Proof.
  intros Ha Hix Hiy Hkx Hky Hh HE.
  destruct (radius_of_gyration_dispatch c axis) as [Hrx Hry].
  destruct (euler_buckling_load_dispatch c axis) as [Hex Hey].
  pose proof (in_box_pos _ Ha). pose proof (in_box_pos _ Hix).
  pose proof (in_box_pos _ Hiy). pose proof (in_box_pos _ Hkx).
  pose proof (in_box_pos _ Hky).
  split; intros Haxis.
  - apply lower_is_x in Haxis. rewrite (Hrx Haxis), (Hex Haxis).
    split; [apply radius_of_gyration_ok; assumption |].
    apply (eulerbucklingload_ok 32); [lra | lia | apply in_box_in_range, Hh].
  - apply lower_is_y in Haxis. rewrite (Hry Haxis), (Hey Haxis).
    split; [apply radius_of_gyration_ok; assumption |].
    apply (eulerbucklingload_ok 32); [lra | lia | apply in_box_in_range, Hh].
Qed.

Definition unit_column : Column.t := Column.mk 1 1 1 1 1 1 1.

Lemma column_axis_properties_witness :
  Column.radius_of_gyration unit_column "X" = Ok (sqrt (1 / 1)) /\
  Column.euler_buckling_load unit_column "X" =
    Ok (PI ^ 2 * 1 * 1 / (1 * 1 ^ 2)).
Proof.
  refine (proj1 (column_axis_properties unit_column "X" _ _ _ _ _ _ _) _);
    try apply in_box_one.
  right. reflexivity.
Defined.

(** A column of height [2^-600] with every other field 1. *)
Definition tiny_height_column : Column.t :=
  Column.mk (/ 2 ^ 600) 1 1 1 1 1 1.

(** C8 (as stated) fails for a very short column: every field is
    positive, but the square of the height underflows to [0.0] and
    [euler_buckling_load] divides by zero. *)
Lemma tiny_height_euler_load_divides_by_zero :
  (0 < Column.area tiny_height_column /\ 0 < Column.Ix tiny_height_column /\
   0 < Column.Iy tiny_height_column /\ 0 < Column.kx tiny_height_column /\
   0 < Column.ky tiny_height_column /\ 0 < Column.height tiny_height_column /\
   0 < Column.E tiny_height_column) /\
  Column.euler_buckling_load tiny_height_column "x" = Raise ZeroDivisionError.
Proof.
  pose proof (Rinv_0_lt_compat _ (pow2_pos 600)) as Hpos.
  split.
  - unfold tiny_height_column.
    cbn [Column.area Column.Ix Column.Iy Column.kx Column.ky Column.height Column.E].
    repeat split; lra.
  - rewrite (proj1 (euler_buckling_load_dispatch tiny_height_column "x"))
      by reflexivity.
    apply eulerbucklingload_underflow.
    unfold tiny_height_column. cbn [Column.height].
    rewrite Rabs_pos_eq by lra. apply inv_pow2_le. lia.
Qed.

(** C9.  With an axis label that is neither ["x"] nor ["y"] up to case,
    neither branch of [radius_of_gyration] or of [euler_buckling_load]
    runs: nothing is raised there and the local result name stays
    unassigned, so the method has no value to return and the [return]
    statement ends in [UnboundLocalError]. *)
Theorem unknown_axis_leaves_result_unbound (c : Column.t) (axis : string) :
  lower axis <> "x"%string -> lower axis <> "y"%string ->
  Column.radius_of_gyration_branches c axis = Ok None /\
  Column.radius_of_gyration c axis = Raise UnboundLocalError /\
  Column.euler_buckling_load_branches c axis = Ok None /\
  Column.euler_buckling_load c axis = Raise UnboundLocalError.
Proof.
  intros Hx Hy.
  unfold Column.radius_of_gyration, Column.euler_buckling_load,
    Column.radius_of_gyration_branches, Column.euler_buckling_load_branches.
  apply String.eqb_neq in Hx, Hy. rewrite Hx, Hy.
  repeat split; reflexivity.
Qed.

Lemma unknown_axis_leaves_result_unbound_witness :
  Column.radius_of_gyration unit_column "z" = Raise UnboundLocalError /\
  Column.euler_buckling_load unit_column "z" = Raise UnboundLocalError.
Proof.
  destruct (unknown_axis_leaves_result_unbound unit_column "z")
    as (_ & Hr & _ & He); [discriminate | discriminate |].
  split; assumption.
Defined.

(** ** Positive inputs: bounds and monotonicity in the height *)

Lemma buckling_stress_pos (area I k L E : R) :
  0 < area -> 0 < I -> 0 < k -> 0 < L -> 0 < E ->
  0 < buckling_stress area I k L E.
Proof.
  intros Ha HI Hk HL HE. unfold buckling_stress.
  pose proof PI2_pos as HPI.
  repeat apply Rdiv_lt_0_compat; try assumption.
  - apply Rmult_lt_0_compat; [apply Rmult_lt_0_compat |]; assumption.
  - apply Rmult_lt_0_compat; [assumption | apply pow_lt; assumption].
Qed.

Lemma buckling_stress_antitone (area I k E L1 L2 : R) :
  0 < area -> 0 < I -> 0 < k -> 0 < E -> 0 < L1 -> L1 <= L2 ->
  buckling_stress area I k L2 E <= buckling_stress area I k L1 E.
Proof.
  intros Ha HI Hk HE HL1 HL.
  unfold buckling_stress, Rdiv.
  pose proof PI2_pos as HPI.
  assert (Hnum : 0 < PI ^ 2 * E * I)
    by (apply Rmult_lt_0_compat; [apply Rmult_lt_0_compat |]; assumption).
  assert (Hd1 : 0 < k * L1 ^ 2) by (apply Rmult_lt_0_compat; [| apply pow_lt]; assumption).
  assert (Hd : k * L1 ^ 2 <= k * L2 ^ 2).
  { apply Rmult_le_compat_l; [lra |]. apply pow_incr. lra. }
  apply Rmult_le_compat_r; [left; apply Rinv_0_lt_compat; assumption |].
  apply Rmult_le_compat_l; [lra |].
  apply Rinv_le_contravar; assumption.
Qed.

Section PositiveInputs.
Variables area I_x I_y k_x k_y E f_y n : R.
Hypothesis area_pos : 0 < area.
Hypothesis I_x_pos : 0 < I_x.
Hypothesis I_y_pos : 0 < I_y.
Hypothesis k_x_pos : 0 < k_x.
Hypothesis k_y_pos : 0 < k_y.
Hypothesis E_pos : 0 < E.
Hypothesis f_y_pos : 0 < f_y.
Hypothesis n_pos : 0 < n.

(** Slenderness and buckling reduction factor at height [L]. *)
Definition slenderness (L : R) : R :=
  sqrt (f_y / governing_stress area I_x I_y k_x k_y L E).

Definition reduction (L : R) : R :=
  Rpower (float_add_one (Rpower (slenderness L) (2 * n))) (-1 / n).

Lemma governing_stress_pos (L : R) :
  0 < L -> 0 < governing_stress area I_x I_y k_x k_y L E.
Proof using area_pos I_x_pos I_y_pos k_x_pos k_y_pos E_pos.
  intros HL. unfold governing_stress.
  apply Rmin_case; apply buckling_stress_pos; assumption.
Qed.

Lemma slenderness_pos (L : R) : 0 < L -> 0 < slenderness L.
Proof using area_pos I_x_pos I_y_pos k_x_pos k_y_pos E_pos f_y_pos.
  intros HL. apply sqrt_lt_R0, Rdiv_lt_0_compat;
    [assumption | apply governing_stress_pos; assumption].
Qed.

Lemma reduction_bounds (L : R) : 0 < reduction L <= 1.
Proof using n_pos.
  unfold reduction, Rpower at 1.
  split; [apply exp_pos |].
  rewrite <- exp_0 at 1. apply exp_le.
  pose proof (exp_pos (2 * n * ln (slenderness L))) as Hp.
  fold (Rpower (slenderness L) (2 * n)) in Hp.
  destruct (float_add_one_bounds _ (Rlt_le _ _ Hp)) as [Hbase _].
  assert (Hln : 0 <= ln (float_add_one (Rpower (slenderness L) (2 * n)))).
  { rewrite <- ln_1. apply ln_le; lra. }
  assert (Hexp : -1 / n < 0).
  { unfold Rdiv. pose proof (Rinv_0_lt_compat n n_pos). lra. }
  set (y := -1 / n) in *.
  set (x := ln (float_add_one (Rpower (slenderness L) (2 * n)))) in *.
  nra.
Qed.

Lemma slenderness_monotone (L1 L2 : R) :
  0 < L1 -> L1 <= L2 -> slenderness L1 <= slenderness L2.
Proof using area_pos I_x_pos I_y_pos k_x_pos k_y_pos E_pos f_y_pos.
  intros HL1 HL. unfold slenderness. apply sqrt_le_1_alt.
  assert (HL2 : 0 < L2) by lra.
  pose proof (governing_stress_pos L1 HL1) as H1.
  pose proof (governing_stress_pos L2 HL2) as H2.
  unfold Rdiv. apply Rmult_le_compat_l; [lra |].
  apply Rinv_le_contravar; [assumption |].
  unfold governing_stress.
  apply Rle_trans with
    (Rmin (buckling_stress area I_x k_x L1 E) (buckling_stress area I_y k_y L2 E)).
  - apply Rle_min_compat_r, buckling_stress_antitone; assumption.
  - apply Rle_min_compat_l, buckling_stress_antitone; assumption.
Qed.
End PositiveInputs.

(** The reduction factor falls when the slenderness grows. *)
Lemma reduction_factor_antitone (n lam1 lam2 : R) :
  0 < n -> 0 < lam1 -> lam1 <= lam2 ->
  Rpower (float_add_one (Rpower lam2 (2 * n))) (-1 / n) <=
  Rpower (float_add_one (Rpower lam1 (2 * n))) (-1 / n).
Proof.
  intros Hn H1 H12.
  assert (Hin : Rpower lam1 (2 * n) <= Rpower lam2 (2 * n)).
  { apply Rle_Rpower_l; [lra | split; assumption]. }
  pose proof (exp_pos (2 * n * ln lam1)) as Hp1.
  fold (Rpower lam1 (2 * n)) in Hp1.
  pose proof (float_add_one_bounds _ (Rlt_le _ _ Hp1)) as [Hb1 _].
  pose proof (float_add_one_monotone _ _ (Rlt_le _ _ Hp1) Hin) as Hmono.
  replace (-1 / n) with (- (1 / n)) by (field; lra).
  rewrite !Rpower_Ropp.
  apply Rinv_le_contravar; [apply exp_pos |].
  apply Rle_Rpower_l.
  - apply Rlt_le, Rdiv_lt_0_compat; lra.
  - split; lra.
Qed.

Lemma reduction_antitone (area I_x I_y k_x k_y E f_y n L1 L2 : R) :
  0 < area -> 0 < I_x -> 0 < I_y -> 0 < k_x -> 0 < k_y -> 0 < E ->
  0 < f_y -> 0 < n -> 0 < L1 -> L1 <= L2 ->
  reduction area I_x I_y k_x k_y E f_y n L2 <=
  reduction area I_x I_y k_x k_y E f_y n L1.
Proof.
  intros Ha Hix Hiy Hkx Hky HE Hfy Hn HL1 HL.
  unfold reduction. apply reduction_factor_antitone; [assumption | |].
  - apply slenderness_pos; assumption.
  - apply slenderness_monotone; assumption.
Qed.

(** The capacity for inputs between [2^-32] and [2^32] and [n] between 1
    and 4. *)
Lemma capacity_in_box (area I_x I_y k_x k_y L E f_y n phi : R) :
  in_box area -> in_box I_x -> in_box I_y -> in_box k_x -> in_box k_y ->
  in_box L -> in_box E -> in_box f_y -> 1 <= n <= 4 ->
  factored_axial_capacity area I_x I_y k_x k_y L E f_y n phi =
    Ok (phi * area * f_y * reduction area I_x I_y k_x k_y E f_y n L).
Proof.
  intros Ha Hix Hiy Hkx Hky HL HE Hfy Hn.
  apply capacity_in_range; try (apply in_box_in_range; assumption).
  - rewrite Rabs_pos_eq by lra. exact Hn.
  - apply Rlt_le, Rdiv_lt_0_compat; [exact (in_box_pos _ Hfy) |].
    exact (governing_stress_pos area I_x I_y k_x k_y E
             (in_box_pos _ Ha) (in_box_pos _ Hix) (in_box_pos _ Hiy)
             (in_box_pos _ Hkx) (in_box_pos _ Hky) (in_box_pos _ HE)
             L (in_box_pos _ HL)).
Qed.

(** C10 (as amended).  With [area], [Ix], [Iy], [kx], [ky], [L], [E], [fy]
    and [phi] between [2^-32] and [2^32] and [n] between 1 and 4,
    [factored_axial_capacity] returns a value strictly greater than 0 and
    at most [phi * area * fy]: the reduction factor lies in the interval
    from 0 (excluded) to 1 (included). *)
Theorem factored_axial_capacity_bounds
    (area I_x I_y k_x k_y L E f_y n phi : R) :
  in_box area -> in_box I_x -> in_box I_y -> in_box k_x -> in_box k_y ->
  in_box L -> in_box E -> in_box f_y -> in_box phi -> 1 <= n <= 4 ->
  exists P_r : R,
    factored_axial_capacity area I_x I_y k_x k_y L E f_y n phi = Ok P_r /\
    0 < P_r <= phi * area * f_y.
Proof.
  intros Ha Hix Hiy Hkx Hky HL HE Hfy Hphi Hn.
  exists (phi * area * f_y * reduction area I_x I_y k_x k_y E f_y n L).
  split; [apply capacity_in_box; assumption |].
  pose proof (reduction_bounds area I_x I_y k_x k_y E f_y n ltac:(lra) L)
    as [Hlo Hhi].
  assert (Hc : 0 < phi * area * f_y).
  { apply Rmult_lt_0_compat; [apply Rmult_lt_0_compat |];
      apply in_box_pos; assumption. }
  split; [apply Rmult_lt_0_compat; assumption |].
  rewrite <- (Rmult_1_r (phi * area * f_y)) at 2.
  apply Rmult_le_compat_l; lra.
Qed.

Lemma factored_axial_capacity_bounds_witness :
  exists P_r : R,
    factored_axial_capacity 1 1 1 1 1 1 1 1 1 1 = Ok P_r /\
    0 < P_r <= 1 * 1 * 1.
Proof.
  apply (factored_axial_capacity_bounds 1 1 1 1 1 1 1 1 1 1);
    first [apply in_box_one | lra].
Defined.

Lemma Rpower_one_base (y : R) : Rpower 1 y = 1.
Proof. unfold Rpower. rewrite ln_1, Rmult_0_r. apply exp_0. Qed.

Lemma in_range_inv_pow2 (j : nat) : in_range j (/ 2 ^ j).
Proof.
  pose proof (Rinv_0_lt_compat _ (pow2_pos j)) as Hp.
  unfold in_range. rewrite Rabs_pos_eq by lra. split; [lra |].
  apply Rle_trans with 1; [| apply pow2_ge_1].
  apply inv_pow2_le_1.
Qed.

(** C10 (as stated) fails for a short column: every input is positive,
    [lambda^(2n)] is below half an ulp, the sum [1 + lambda^(2n)] is
    [1.0] and the call returns [phi * area * fy] itself. *)
Lemma short_column_returns_yield_capacity :
  0 < / 2 ^ 30 /\
  factored_axial_capacity 1 1 1 1 1 (/ 2 ^ 30) 1 1 1 1 = Ok (1 * 1 * 1) /\
  ~ (1 * 1 * 1 < 1 * 1 * 1).
Proof.
  pose proof (Rinv_0_lt_compat _ (pow2_pos 30)) as HL.
  pose proof PI2_pos as HPI. pose proof PI2_3_2 as HPI3.
  split; [exact HL |]. split; [| lra].
  set (L := / 2 ^ 30) in *.
  assert (HL2 : 0 < L ^ 2) by (apply pow_lt; exact HL).
  assert (HFe : governing_stress 1 1 1 1 1 L 1 = PI ^ 2 / L ^ 2).
  { unfold governing_stress, buckling_stress.
    rewrite Rmin_left by lra. field. lra. }
  assert (Hq : 1 / governing_stress 1 1 1 1 1 L 1 = L ^ 2 / PI ^ 2).
  { rewrite HFe. field. lra. }
  assert (Hqpos : 0 < L ^ 2 / PI ^ 2) by (apply Rdiv_lt_0_compat; assumption).
  destruct (capacity_in_range 1 1 1 1 1 L 1 1 1 1) as (Hcap & Hlam & _);
    try apply in_range_one.
  - apply (in_range_weaken 30 32); [lia | apply in_range_inv_pow2].
  - rewrite Rabs_R1. lra.
  - rewrite Hq. lra.
  - rewrite Hcap. f_equal.
    assert (Ha : Rpower (sqrt (1 / governing_stress 1 1 1 1 1 L 1)) (2 * 1)
                 = L ^ 2 / PI ^ 2).
    { replace (2 * 1) with (INR 2) by (simpl; lra).
      rewrite Rpower_pow by exact Hlam.
      rewrite pow2_sqrt; [exact Hq | rewrite Hq; lra]. }
    rewrite Ha.
    assert (Hsmall : L ^ 2 / PI ^ 2 <= float_half_ulp).
    { apply Rle_trans with (L ^ 2).
      - apply Rle_trans with (L ^ 2 / 1); [| right; field].
        unfold Rdiv. apply Rmult_le_compat_l; [lra |].
        apply Rinv_le_contravar; nra.
      - unfold L, float_half_ulp. rewrite pow_inv, <- pow_mult.
        apply inv_pow2_le. lia. }
    unfold float_add_one. rewrite Rabs_pos_eq by lra.
    destruct (Rle_dec (L ^ 2 / PI ^ 2) float_half_ulp); [| contradiction].
    rewrite Rpower_one_base. ring.
Qed.

(** C5 (as amended).  With [area], [Ix], [Iy], [kx], [ky], [E], [fy] and
    [phi] fixed between [2^-32] and [2^32] and [n] between 1 and 4,
    [factored_axial_capacity] does not increase with the height: for
    heights [L1 <= L2] in the same range both calls return, and the value
    at [L1] is at least the value at [L2]. *)
Theorem factored_axial_capacity_antitone_in_height
    (area I_x I_y k_x k_y E f_y n phi L1 L2 : R) :
  in_box area -> in_box I_x -> in_box I_y -> in_box k_x -> in_box k_y ->
  in_box E -> in_box f_y -> in_box phi -> 1 <= n <= 4 ->
  in_box L1 -> in_box L2 -> L1 <= L2 ->
  exists P1 P2 : R,
    factored_axial_capacity area I_x I_y k_x k_y L1 E f_y n phi = Ok P1 /\
    factored_axial_capacity area I_x I_y k_x k_y L2 E f_y n phi = Ok P2 /\
    P2 <= P1.
Proof.
  intros Ha Hix Hiy Hkx Hky HE Hfy Hphi Hn HL1 HL2 HL.
  exists (phi * area * f_y * reduction area I_x I_y k_x k_y E f_y n L1),
         (phi * area * f_y * reduction area I_x I_y k_x k_y E f_y n L2).
  split; [apply capacity_in_box; assumption |].
  split; [apply capacity_in_box; assumption |].
  apply Rmult_le_compat_l.
  - apply Rlt_le. apply Rmult_lt_0_compat; [apply Rmult_lt_0_compat |];
      apply in_box_pos; assumption.
  - apply reduction_antitone; try (apply in_box_pos; assumption); lra.
Qed.

Lemma in_box_two : in_box 2.
Proof. apply in_box_between. lra. Qed.

Lemma factored_axial_capacity_antitone_in_height_witness :
  exists P1 P2 : R,
    factored_axial_capacity 1 1 1 1 1 1 1 1 1 1 = Ok P1 /\
    factored_axial_capacity 1 1 1 1 1 2 1 1 1 1 = Ok P2 /\
    P2 <= P1.
Proof.
  apply (factored_axial_capacity_antitone_in_height 1 1 1 1 1 1 1 1 1 1 2);
    first [apply in_box_one | apply in_box_two | lra].
Defined.

Lemma in_range_ten : in_range 4 10.
Proof.
  unfold in_range. rewrite Rabs_pos_eq by lra.
  replace (2 ^ 4) with 16 by (simpl; lra). lra.
Qed.

Lemma capacity_overflows_for_large_n :
  factored_axial_capacity 1 1 1 1 1 10 1 1 1000 1 = Raise OverflowError.
Proof.
  pose proof PI2_pos as HPI. pose proof PI_4 as HPI4. pose proof PI_RGT_0 as HPI0.
  rewrite (capacity_after_stresses 4) by (first [lra | lia | apply in_range_ten]).
  assert (HFe : governing_stress 1 1 1 1 1 10 1 = PI ^ 2 / 100).
  { unfold governing_stress, buckling_stress.
    rewrite Rmin_left by lra. field. }
  rewrite HFe.
  assert (Hq : 4 <= 1 / (PI ^ 2 / 100)).
  { replace (1 / (PI ^ 2 / 100)) with (100 / PI ^ 2) by (field; lra).
    apply Rmult_le_reg_r with (PI ^ 2); [exact HPI |].
    unfold Rdiv. rewrite Rmult_assoc, Rinv_l by lra. nra. }
  rewrite (py_div_ok 1 (PI ^ 2 / 100)) by lra. rewrite bind_Ok.
  rewrite py_sqrt_ok by lra. rewrite bind_Ok.
  assert (Hlam : 2 <= sqrt (1 / (PI ^ 2 / 100))).
  { replace 2 with (sqrt (2 ^ 2)) at 1 by (apply sqrt_pow2; lra).
    apply sqrt_le_1_alt. replace (2 ^ 2) with 4 by (simpl; lra). exact Hq. }
  rewrite py_pow_pos by lra.
  rewrite pow_range_overflow; [reflexivity |].
  rewrite Rabs_pos_eq by (left; apply exp_pos).
  apply Rle_trans with (Rpower 2 (2 * 1000)).
  - replace (2 * 1000) with (IZR (Z.of_nat 2000))
      by (vm_compute (Z.of_nat 2000); lra).
    rewrite <- INR_IZR_INZ.
    rewrite Rpower_pow by lra.
    unfold float_huge. apply pow2_le. lia.
  - apply Rle_Rpower_l; [lra | split; lra].
Qed.

(** C5 (as stated) fails for a large shape parameter: every input is
    positive, and [lambda ** (2n)] overflows, so that the call returns no
    capacity to compare. *)
Lemma large_shape_parameter_overflows :
  (0 < 10 /\ 0 < 1000) /\
  factored_axial_capacity 1 1 1 1 1 10 1 1 1000 1 = Raise OverflowError.
Proof. split; [lra | apply capacity_overflows_for_large_n]. Qed.

(** A column with all geometric fields 1 and yield strength [fy]. *)
Definition unit_steel_column (fy : R) : SteelColumn.t :=
  SteelColumn.mk unit_column "C1" fy (Load.mk 1 1 0 0 0) phi_default.

Lemma float_add_one_zero : float_add_one 0 = 1.
Proof.
  unfold float_add_one. rewrite Rabs_R0.
  destruct (Rle_dec 0 float_half_ulp) as [_ | H]; [reflexivity |].
  exfalso. apply H. left. apply Rinv_0_lt_compat, pow2_pos.
Qed.

Lemma unit_steel_column_zero_yield :
  SteelColumn.factored_axial_capacity (unit_steel_column 0) 1 = Ok 0.
Proof.
  unfold SteelColumn.factored_axial_capacity. simpl.
  pose proof PI2_pos as HPI.
  rewrite (capacity_after_stresses 0) by (first [lra | lia | apply in_range_one]).
  rewrite governing_stress_unit.
  rewrite (py_div_ok 0 (PI ^ 2)) by lra. rewrite bind_Ok.
  replace (0 / PI ^ 2) with 0 by (unfold Rdiv; ring).
  rewrite py_sqrt_ok, bind_Ok, sqrt_0 by lra.
  rewrite py_pow_zero_base, bind_Ok by lra.
  rewrite (py_div_ok (-1) 1), bind_Ok by lra.
  rewrite float_add_one_zero, py_pow_pos, Rpower_one_base, pow_range_one by lra.
  rewrite bind_Ok. f_equal. ring.
Qed.

Lemma factored_dcr_is_ratio_witness :
  SteelColumn.factored_dcr (unit_steel_column 0) 1 = Raise ZeroDivisionError.
Proof.
  exact (proj1 (proj2 (factored_dcr_is_ratio (unit_steel_column 0) 1))
           unit_steel_column_zero_yield).
Defined.

(** ** The half-open integer range *)

(** The ceiling of [a / b] for a positive [b], by floor division. *)
Definition ceil_div (a b : Z) : Z := (- ((- a) / b))%Z.

Section Range.
Local Open Scope Z_scope.

Lemma ceil_div_spec (a b : Z) :
  0 < b -> (ceil_div a b - 1) * b < a <= ceil_div a b * b.
Proof.
  intros Hb. unfold ceil_div.
  pose proof (Z.div_mod (- a) b ltac:(lia)) as Hdm.
  pose proof (Z.mod_pos_bound (- a) b Hb) as Hmod.
  nia.
Qed.

Lemma range_length_ceil (start stop step : Z) :
  0 < step ->
  range_length start stop step = Z.max 0 (ceil_div (stop - start) step).
Proof.
  intros Hstep. unfold range_length.
  pose proof (ceil_div_spec (stop - start) step Hstep) as Hc.
  destruct (Z.ltb_spec 0 step) as [_ | Hn]; [| lia].
  destruct (Z.ltb_spec start stop) as [Hlt | Hge].
  - pose proof (Z.div_mod (stop - start - 1) step ltac:(lia)) as Hdm.
    pose proof (Z.mod_pos_bound (stop - start - 1) step Hstep) as Hmod.
    nia.
  - nia.
Qed.

Lemma range_items_map (start step : Z) (count : nat) :
  range_items start step count =
    map (fun i : nat => start + Z.of_nat i * step) (seq 0 count).
Proof.
  revert start. induction count as [| count IH]; intros start; [reflexivity |].
  cbn [range_items seq map]. f_equal; [lia |].
  rewrite IH, <- seq_shift, map_map.
  apply map_ext. intros i. lia.
Qed.

Lemma range_items_In (start step : Z) (count : nat) (h : Z) :
  In h (range_items start step count) <->
  exists i : Z, 0 <= i < Z.of_nat count /\ h = start + i * step.
Proof.
  rewrite range_items_map, in_map_iff. split.
  - intros (i & <- & Hi). apply in_seq in Hi. exists (Z.of_nat i).
    split; [lia | reflexivity].
  - intros (i & Hi & ->). exists (Z.to_nat i).
    split; [f_equal; f_equal; lia |]. apply in_seq. lia.
Qed.

(** Below the stop value are exactly the first [range_length] terms of
    the progression. *)
Lemma below_stop_iff (start stop step i : Z) :
  0 < step -> 0 <= i ->
  (start + i * step < stop <-> i < range_length start stop step).
Proof.
  intros Hstep Hi. rewrite range_length_ceil by assumption.
  pose proof (ceil_div_spec (stop - start) step Hstep) as Hc.
  split; intros H; nia.
Qed.
End Range.

(** ** The height sweep *)

Lemma mapM_Ok_iff {A B : Type} (f : A -> result B) (xs : list A) (ys : list B) :
  mapM f xs = Ok ys <-> Forall2 (fun x y => f x = Ok y) xs ys.
Proof.
  revert ys. induction xs as [| x xs IH]; intros ys; cbn [mapM].
  - split.
    + intros [= <-]. constructor.
    + intros H. inversion H. reflexivity.
  - split.
    + destruct (f x) as [y | e] eqn:Hfx; [| discriminate].
      rewrite bind_Ok.
      destruct (mapM f xs) as [ys' | e] eqn:Hrest; [| discriminate].
      rewrite bind_Ok. intros [= <-].
      constructor; [assumption | apply IH; reflexivity].
    + intros H. inversion H as [| x' y xs' ys' Hfx Hrest]; subst.
      apply IH in Hrest. rewrite Hfx, bind_Ok, Hrest. reflexivity.
Qed.

Lemma mapM_total {A B : Type} (f : A -> result B) (xs : list A) :
  (forall x, In x xs -> exists y, f x = Ok y) ->
  exists ys, mapM f xs = Ok ys.
Proof.
  induction xs as [| x xs IH]; intros Hall; cbn [mapM].
  - exists []. reflexivity.
  - destruct (Hall x (or_introl eq_refl)) as [y Hy].
    destruct IH as [ys Hys]; [intros x' Hx'; apply Hall; right; exact Hx' |].
    exists (y :: ys). rewrite Hy, bind_Ok, Hys. reflexivity.
Qed.

(** The capacity the sweep computes at an integer height [h]. *)
Definition capacity_at_height (area i_x i_y E fy : R) (h : Z) : result R :=
  factored_axial_capacity area i_x i_y 1 1 (IZR h) E fy 1.34 phi_default.

(** The loop that overwrites the height of one column and appends to
    [y_values] computes the capacities of the heights in order. *)
Lemma sweep_loop_mapM (x_values : list Z) :
  forall (test_column : SteelColumn.t) (y_values : list R),
  (p ← sweep_loop test_column y_values x_values; Ok (snd p)) =
  (zs ← mapM (fun h =>
               SteelColumn.factored_axial_capacity
                 (SteelColumn.set_height test_column (IZR h)) 1.34) x_values;
   Ok (y_values ++ zs)).
Proof.
  induction x_values as [| h rest IH]; intros test_column y_values.
  - cbn [sweep_loop mapM]. rewrite !bind_Ok, app_nil_r. reflexivity.
  - cbn [sweep_loop mapM].
    destruct (SteelColumn.factored_axial_capacity
                (SteelColumn.set_height test_column (IZR h)) 1.34)
      as [pr | e]; [| reflexivity].
    rewrite !bind_Ok, IH.
    change (fun h0 : Z =>
              SteelColumn.factored_axial_capacity
                (SteelColumn.set_height
                   (SteelColumn.set_height test_column (IZR h)) (IZR h0)) 1.34)
      with (fun h0 : Z =>
              SteelColumn.factored_axial_capacity
                (SteelColumn.set_height test_column (IZR h0)) 1.34).
    destruct (mapM _ rest) as [zs | e]; [| reflexivity].
    rewrite !bind_Ok, <- app_assoc. reflexivity.
Qed.

Lemma column_pr_over_height_range_unfold
    (min_height max_height interval : Z) (column_tag : string)
    (area i_x i_y E fy : R) :
  column_pr_over_height_range min_height max_height interval column_tag
    area i_x i_y E fy =
  (x_values ← py_range min_height max_height interval;
   y_values ← mapM (capacity_at_height area i_x i_y E fy) x_values;
   Ok (x_values, y_values)).
Proof.
  unfold column_pr_over_height_range.
  destruct (py_range min_height max_height interval) as [xs | e]; [| reflexivity].
  rewrite !bind_Ok. cbv zeta.
  match goal with
  | |- context [sweep_loop ?tc [] xs] =>
      pose proof (sweep_loop_mapM xs tc []) as Hloop;
      destruct (sweep_loop tc [] xs) as [[tc' ys] | e]
  end.
  - rewrite bind_Ok in Hloop. cbn [snd] in Hloop.
    change (mapM (capacity_at_height area i_x i_y E fy) xs)
      with (mapM (fun h => SteelColumn.factored_axial_capacity
                   (SteelColumn.set_height
                      (SteelColumn.mk
                         (Column.mk (IZR min_height) area i_x i_y 1 1 E)
                         column_tag fy (Load.mk 0 0 0 0 0) phi_default)
                      (IZR h)) 1.34) xs).
    destruct (mapM _ xs) as [zs | e]; [| discriminate].
    rewrite bind_Ok in Hloop. injection Hloop as ->. reflexivity.
  - rewrite bind_Raise in Hloop.
    change (mapM (capacity_at_height area i_x i_y E fy) xs)
      with (mapM (fun h => SteelColumn.factored_axial_capacity
                   (SteelColumn.set_height
                      (SteelColumn.mk
                         (Column.mk (IZR min_height) area i_x i_y 1 1 E)
                         column_tag fy (Load.mk 0 0 0 0 0) phi_default)
                      (IZR h)) 1.34) xs).
    destruct (mapM _ xs) as [zs | e']; [discriminate |].
    rewrite bind_Raise in Hloop. injection Hloop as ->. reflexivity.
Qed.

(** The heights of the sweep for a positive step. *)
Definition sweep_heights (min_height max_height interval : Z) : list Z :=
  map (fun i : nat => (min_height + Z.of_nat i * interval)%Z)
      (seq 0 (Z.to_nat (Z.max 0 (ceil_div (max_height - min_height) interval)))).

Lemma py_range_positive_step (min_height max_height interval : Z) :
  (0 < interval)%Z ->
  py_range min_height max_height interval =
    Ok (sweep_heights min_height max_height interval).
Proof.
  intros Hstep. unfold py_range, sweep_heights.
  destruct (Z.eqb_spec interval 0) as [-> | _]; [lia |].
  rewrite range_items_map, range_length_ceil by assumption. reflexivity.
Qed.

Lemma sweep_heights_In (min_height max_height interval h : Z) :
  (0 < interval)%Z ->
  In h (sweep_heights min_height max_height interval) <->
  exists i : Z,
    (0 <= i)%Z /\ h = (min_height + i * interval)%Z /\ (h < max_height)%Z.
Proof.
  intros Hstep. unfold sweep_heights.
  rewrite <- range_length_ceil, <- range_items_map, range_items_In by assumption.
  split.
  - intros (i & Hi & ->). exists i.
    split; [lia |]. split; [reflexivity |].
    apply below_stop_iff; lia.
  - intros (i & Hi & -> & Hlt). exists i. split; [| reflexivity].
    apply below_stop_iff in Hlt; lia.
Qed.

Lemma in_box_IZR (h : Z) : (1 <= h <= 2 ^ 32)%Z -> in_box (IZR h).
Proof.
  intros [Hlo Hhi]. unfold in_box. split.
  - apply Rle_trans with 1; [apply inv_pow2_le_1 |].
    apply IZR_le in Hlo. exact Hlo.
  - apply IZR_le in Hhi.
    replace (2 ^ 32) with (IZR (2 ^ 32)); [exact Hhi |].
    rewrite (pow_IZR 2 32). reflexivity.
Qed.

Lemma shape_parameter_in_range : 1 <= 1.34 <= 4.
Proof. lra. Qed.

(** Inside the box of magnitudes the sweep returns a resistance for
    every height. *)
Lemma sweep_returns_in_box
    (min_height max_height interval : Z) (column_tag : string)
    (area i_x i_y E fy : R) :
  (0 < interval)%Z -> (1 <= min_height)%Z -> (max_height <= 2 ^ 32)%Z ->
  in_box area -> in_box i_x -> in_box i_y -> in_box E -> in_box fy ->
  exists y_values : list R,
    column_pr_over_height_range min_height max_height interval column_tag
      area i_x i_y E fy =
    Ok (sweep_heights min_height max_height interval, y_values).
Proof.
  intros Hstep Hmin Hmax Ha Hix Hiy HE Hfy.
  rewrite column_pr_over_height_range_unfold.
  rewrite py_range_positive_step, bind_Ok by assumption.
  destruct (mapM_total (capacity_at_height area i_x i_y E fy)
              (sweep_heights min_height max_height interval)) as [ys Hys].
  - intros h Hh. apply sweep_heights_In in Hh as (i & Hi & -> & Hlt); [| assumption].
    unfold capacity_at_height. eexists.
    apply capacity_in_box;
      first [assumption | apply in_box_one | apply shape_parameter_in_range
            | apply in_box_IZR; nia].
  - exists ys. rewrite Hys. reflexivity.
Qed.

(** C3 (as amended).  For a positive [interval] the heights of
    [column_pr_over_height_range] are [min_height + i * interval] for
    [i = 0, 1, ...], exactly those terms that are strictly below
    [max_height]; there are [max(0, ceil((max_height - min_height) /
    interval))] of them.  The call returns a pair of lists exactly when
    [factored_axial_capacity] returns at each of these heights with
    [kx = ky = 1], [n = 1.34] and [phi = 0.9]; the lists are then the
    heights and these resistances, in the same order. *)
Theorem sweep_half_open_range
    (min_height max_height interval : Z) (column_tag : string)
    (area i_x i_y E fy : R) :
  (0 < interval)%Z ->
  let count := Z.max 0 (ceil_div (max_height - min_height) interval) in
  let heights :=
    map (fun i : nat => (min_height + Z.of_nat i * interval)%Z)
        (seq 0 (Z.to_nat count)) in
  Z.of_nat (length heights) = count /\
  (forall h : Z,
     In h heights <->
     exists i : Z,
       (0 <= i)%Z /\ h = (min_height + i * interval)%Z /\ (h < max_height)%Z) /\
  (forall (x_values : list Z) (y_values : list R),
     column_pr_over_height_range min_height max_height interval column_tag
       area i_x i_y E fy = Ok (x_values, y_values) <->
     x_values = heights /\
     Forall2 (fun h y =>
                factored_axial_capacity area i_x i_y 1 1 (IZR h) E fy 1.34 0.9
                = Ok y) heights y_values).
Proof.
  intros Hstep count heights.
  change heights with (sweep_heights min_height max_height interval).
  split; [| split].
  - unfold sweep_heights. rewrite length_map, length_seq. fold count. lia.
  - intros h. apply sweep_heights_In. assumption.
  - intros xs ys. rewrite column_pr_over_height_range_unfold.
    rewrite py_range_positive_step, bind_Ok by assumption.
    change (fun (h : Z) (y : R) =>
              factored_axial_capacity area i_x i_y 1 1 (IZR h) E fy 1.34 0.9 = Ok y)
      with (fun (h : Z) (y : R) => capacity_at_height area i_x i_y E fy h = Ok y).
    rewrite <- mapM_Ok_iff.
    destruct (mapM _ _) as [zs | e]; cbn.
    + split; [intros [= <- <-]; auto | intros [-> [= ->]]; reflexivity].
    + split; [discriminate | intros [_ H]; discriminate H].
Qed.

Lemma sweep_in_box_example :
  exists y_values : list R,
    column_pr_over_height_range 1 3 1 "Column A" 1 1 1 1 1 =
      Ok ([1; 2]%Z, y_values).
Proof.
  apply (sweep_returns_in_box 1 3 1 "Column A" 1 1 1 1 1);
    first [apply in_box_one | lia].
Qed.

Lemma sweep_half_open_range_witness :
  exists y_values : list R,
    column_pr_over_height_range 1 3 1 "Column A" 1 1 1 1 1
      = Ok ([1; 2]%Z, y_values) /\
    Forall2 (fun h y => factored_axial_capacity 1 1 1 1 1 (IZR h) 1 1 1.34 0.9
                        = Ok y) [1; 2]%Z y_values.
Proof.
  destruct sweep_in_box_example as [y_values Hrun].
  exists y_values. split; [exact Hrun |].
  destruct (sweep_half_open_range 1 3 1 "Column A" 1 1 1 1 1)
    as (_ & _ & Hiff); [reflexivity |].
  apply Hiff in Hrun as [_ Hall]. exact Hall.
Defined.

(** C3 (as stated) fails when [max_height] is below [min_height]: the
    sweep is empty, while the ceiling of the quotient is negative. *)
Lemma sweep_count_differs_from_ceiling :
  column_pr_over_height_range 5 0 1 "Column A" 1 1 1 1 1 = Ok ([], []) /\
  Z.of_nat (length ([] : list Z)) <> ceil_div (0 - 5) 1.
Proof. split; [reflexivity | discriminate]. Qed.

(** ** Comparing two columns *)

Lemma compare_two_columns_unfold
    (min_height max_height interval : Z)
    (area_a i_x_a i_y_a E_a fy_a area_b i_x_b i_y_b E_b fy_b : R) :
  compare_two_columns min_height max_height interval
    area_a i_x_a i_y_a E_a fy_a area_b i_x_b i_y_b E_b fy_b =
  (a ← column_pr_over_height_range min_height max_height interval
         "Column A" area_a i_x_a i_y_a E_a fy_a;
   b ← column_pr_over_height_range min_height max_height interval
         "Column B" area_b i_x_b i_y_b E_b fy_b;
   Ok (<["b" := b]> (<["a" := a]> (∅ : gmap string (list Z * list R))))).
Proof.
  unfold compare_two_columns.
  destruct (column_pr_over_height_range _ _ _ "Column A" _ _ _ _ _)
    as [[xa ya] | e]; [| reflexivity].
  rewrite !bind_Ok.
  destruct (column_pr_over_height_range _ _ _ "Column B" _ _ _ _ _)
    as [[xb yb] | e]; reflexivity.
Qed.

Lemma two_entries_lookup {V : Type} (a b : V) :
  let d : gmap string V := <["b" := b]> (<["a" := a]> ∅) in
  d !! "a" = Some a /\ d !! "b" = Some b /\
  (forall k : string, k <> "a"%string -> k <> "b"%string -> d !! k = None).
Proof.
  cbv zeta. split; [| split].
  - rewrite lookup_insert_ne by discriminate. apply lookup_insert_eq.
  - apply lookup_insert_eq.
  - intros k Ha Hb.
    rewrite lookup_insert_ne by congruence.
    rewrite lookup_insert_ne by congruence.
    apply lookup_empty.
Qed.

(** C4 (as amended).  [compare_two_columns] returns a dictionary with
    exactly the keys ["a"] and ["b"]: under ["a"] the pair
    [(heights, resistances)] of the sweep over the first parameter set,
    under ["b"] that of the sweep over the second.  It returns whenever
    both sweeps do, and the entry of one column is the same whatever the
    section parameters of the other are. *)
Theorem compare_two_columns_entries
    (min_height max_height interval : Z)
    (area_a i_x_a i_y_a E_a fy_a area_b i_x_b i_y_b E_b fy_b : R) :
  let sweep_a :=
    column_pr_over_height_range min_height max_height interval
      "Column A" area_a i_x_a i_y_a E_a fy_a in
  let sweep_b :=
    column_pr_over_height_range min_height max_height interval
      "Column B" area_b i_x_b i_y_b E_b fy_b in
  let call :=
    compare_two_columns min_height max_height interval
      area_a i_x_a i_y_a E_a fy_a area_b i_x_b i_y_b E_b fy_b in
  (forall a b, sweep_a = Ok a -> sweep_b = Ok b -> exists d, call = Ok d) /\
  (forall d : gmap string (list Z * list R),
     call = Ok d ->
     exists a b,
       sweep_a = Ok a /\ sweep_b = Ok b /\
       d !! "a" = Some a /\ d !! "b" = Some b /\
       (forall k : string, k <> "a"%string -> k <> "b"%string -> d !! k = None)) /\
  (forall (area' i_x' i_y' E' fy' : R) (d d' : gmap string (list Z * list R)),
     call = Ok d ->
     compare_two_columns min_height max_height interval
       area_a i_x_a i_y_a E_a fy_a area' i_x' i_y' E' fy' = Ok d' ->
     d' !! "a" = d !! "a") /\
  (forall (area' i_x' i_y' E' fy' : R) (d d' : gmap string (list Z * list R)),
     call = Ok d ->
     compare_two_columns min_height max_height interval
       area' i_x' i_y' E' fy' area_b i_x_b i_y_b E_b fy_b = Ok d' ->
     d' !! "b" = d !! "b").
Proof.
  intros sweep_a sweep_b call.
  assert (Hcall : forall d, call = Ok d ->
            exists a b, sweep_a = Ok a /\ sweep_b = Ok b /\
                        d = <["b" := b]> (<["a" := a]> ∅)).
  { intros d. unfold call. rewrite compare_two_columns_unfold.
    fold sweep_a sweep_b.
    destruct sweep_a as [a | e]; [| discriminate].
    destruct sweep_b as [b | e]; [| discriminate].
    rewrite !bind_Ok. intros [= <-]. exists a, b. auto. }
  split; [| split; [| split]].
  - intros a b Ha Hb. unfold call. rewrite compare_two_columns_unfold.
    fold sweep_a sweep_b. rewrite Ha, Hb, !bind_Ok. eauto.
  - intros d Hd. destruct (Hcall d Hd) as (a & b & Ha & Hb & ->).
    exists a, b. split; [assumption |]. split; [assumption |].
    apply two_entries_lookup.
  - intros area' i_x' i_y' E' fy' d d' Hd Hd'.
    destruct (Hcall d Hd) as (a & b & Ha & Hb & ->).
    rewrite compare_two_columns_unfold in Hd'. fold sweep_a in Hd'.
    rewrite Ha, bind_Ok in Hd'.
    destruct (column_pr_over_height_range _ _ _ "Column B" area' _ _ _ _)
      as [b' | e]; [| discriminate].
    rewrite bind_Ok in Hd'. injection Hd' as <-.
    rewrite !lookup_insert_ne by discriminate.
    rewrite !lookup_insert_eq. reflexivity.
  - intros area' i_x' i_y' E' fy' d d' Hd Hd'.
    destruct (Hcall d Hd) as (a & b & Ha & Hb & ->).
    rewrite compare_two_columns_unfold in Hd'. fold sweep_b in Hd'.
    destruct (column_pr_over_height_range _ _ _ "Column A" area' _ _ _ _)
      as [a' | e]; [| discriminate].
    rewrite bind_Ok, Hb, bind_Ok in Hd'. injection Hd' as <-.
    rewrite !lookup_insert_eq. reflexivity.
Qed.

Lemma compare_two_columns_entries_witness :
  exists d : gmap string (list Z * list R),
    compare_two_columns 1 3 1 1 1 1 1 1 2 2 2 2 2 = Ok d.
Proof.
  destruct (sweep_returns_in_box 1 3 1 "Column A" 1 1 1 1 1)
    as [ya Ha]; [lia | lia | lia | apply in_box_one ..|].
  destruct (sweep_returns_in_box 1 3 1 "Column B" 2 2 2 2 2)
    as [yb Hb]; [lia | lia | lia | apply in_box_two ..|].
  exact (proj1 (compare_two_columns_entries 1 3 1 1 1 1 1 1 2 2 2 2 2)
           _ _ Ha Hb).
Defined.

(** C4 (as stated) fails on the keys: the returned dictionary has no
    entry under ["A"] or ["B"]. *)
Lemma compare_two_columns_has_no_upper_case_keys :
  exists d : gmap string (list Z * list R),
    compare_two_columns 1 3 1 1 1 1 1 1 2 2 2 2 2 = Ok d /\
    d !! "A" = None /\ d !! "B" = None.
Proof.
  destruct (sweep_returns_in_box 1 3 1 "Column A" 1 1 1 1 1)
    as [ya Ha]; [lia | lia | lia | apply in_box_one ..|].
  destruct (sweep_returns_in_box 1 3 1 "Column B" 2 2 2 2 2)
    as [yb Hb]; [lia | lia | lia | apply in_box_two ..|].
  eexists. rewrite compare_two_columns_unfold, Ha, Hb, !bind_Ok.
  split; [reflexivity |].
  split; apply two_entries_lookup; discriminate.
Qed.

(** ** Division by zero *)

Lemma abs_below_overflow (L : R) : Rabs L <= 2 ^ 511 -> Rabs L < 2 ^ 512.
Proof.
  intros HL. eapply Rle_lt_trans; [exact HL | apply pow2_lt; lia].
Qed.

Lemma eulerbucklingload_zero (E I k L : R) :
  Rabs L < 2 ^ 512 -> k = 0 \/ L = 0 ->
  eulerbucklingload E I k L = Raise ZeroDivisionError.
Proof.
  intros HL [-> | ->].
  - apply eulerbucklingload_zero_factor. exact HL.
  - apply eulerbucklingload_zero_length.
Qed.

Lemma capacity_zero_area (I_x I_y k_x k_y L E f_y n phi : R) :
  Rabs L < 2 ^ 512 ->
  factored_axial_capacity 0 I_x I_y k_x k_y L E f_y n phi =
    Raise ZeroDivisionError.
Proof.
  intros HL. unfold factored_axial_capacity.
  destruct (eulerbucklingload_cases E I_x k_x L) as [H | [-> | [P ->]]].
  - exfalso. exact (eulerbucklingload_no_overflow _ _ _ _ HL H).
  - reflexivity.
  - rewrite bind_Ok, py_div_zero. reflexivity.
Qed.

Lemma capacity_zero_stress (area I_x I_y k_x k_y L E f_y n phi : R) :
  area <> 0 -> k_x <> 0 -> k_y <> 0 -> in_range 511 L ->
  governing_stress area I_x I_y k_x k_y L E = 0 ->
  factored_axial_capacity area I_x I_y k_x k_y L E f_y n phi =
    Raise ZeroDivisionError.
Proof.
  intros Ha Hkx Hky HL HFe.
  rewrite (capacity_after_stresses 511) by (assumption || lia).
  rewrite HFe, py_div_zero. reflexivity.
Qed.

Lemma IZR_abs_bound (h : Z) (k : nat) :
  (Z.abs h <= 2 ^ Z.of_nat k)%Z -> Rabs (IZR h) <= 2 ^ k.
Proof.
  intros Hh. rewrite <- abs_IZR. apply IZR_le in Hh.
  rewrite (pow_IZR 2 k). exact Hh.
Qed.

(** C6 (as amended).  With a height of magnitude at most [2^511], so
    that [L ** 2] stays in the float range: [factored_axial_capacity]
    raises [ZeroDivisionError] when [area = 0] (with [kx] and [L] of
    ordinary magnitude the buckling load is computed and the division by
    the area is what fails) and, for parameters of ordinary magnitude,
    when the governing stress [F_e] is [0] (at [fy / F_e]);
    [eulerbucklingload] and [Column.euler_buckling_load]
    raise it when the effective-length factor of the axis or the height
    is [0].  The exception reaches the callers as it is: the
    [SteelColumn] methods and a height sweep between [-2^32] and [2^32]
    end in the same [ZeroDivisionError]. *)
Theorem division_by_zero_propagates :
  (forall I_x I_y k_x k_y L E f_y n phi : R,
     Rabs L <= 2 ^ 511 ->
     factored_axial_capacity 0 I_x I_y k_x k_y L E f_y n phi =
       Raise ZeroDivisionError) /\
  (forall I_x k_x L E : R,
     Rabs E <= 2 ^ 32 -> Rabs I_x <= 2 ^ 32 ->
     in_range 32 k_x -> in_range 32 L ->
     exists P_E_x, eulerbucklingload E I_x k_x L = Ok P_E_x /\
                   py_div P_E_x 0 = Raise ZeroDivisionError) /\
  (forall area I_x I_y k_x k_y L E f_y n phi : R,
     Rabs E <= 2 ^ 32 -> Rabs I_x <= 2 ^ 32 -> Rabs I_y <= 2 ^ 32 ->
     in_range 32 area -> in_range 32 k_x -> in_range 32 k_y ->
     in_range 32 L ->
     governing_stress area I_x I_y k_x k_y L E = 0 ->
     py_div f_y (governing_stress area I_x I_y k_x k_y L E) =
       Raise ZeroDivisionError /\
     factored_axial_capacity area I_x I_y k_x k_y L E f_y n phi =
       Raise ZeroDivisionError) /\
  (forall E I k L : R,
     Rabs L <= 2 ^ 511 -> k = 0 \/ L = 0 ->
     eulerbucklingload E I k L = Raise ZeroDivisionError) /\
  (forall (c : Column.t) (axis : string),
     Rabs (Column.height c) <= 2 ^ 511 ->
     Column.height c = 0 \/
     (lower axis = "x"%string /\ Column.kx c = 0) \/
     (lower axis = "y"%string /\ Column.ky c = 0) ->
     lower axis = "x"%string \/ lower axis = "y"%string ->
     Column.euler_buckling_load c axis = Raise ZeroDivisionError) /\
  (forall (sc : SteelColumn.t) (n : R),
     Rabs (Column.height (SteelColumn.base sc)) <= 2 ^ 511 ->
     Column.area (SteelColumn.base sc) = 0 ->
     SteelColumn.factored_axial_capacity sc n = Raise ZeroDivisionError /\
     SteelColumn.factored_dcr sc n = Raise ZeroDivisionError) /\
  (forall (min_height max_height interval : Z) (column_tag : string)
          (i_x i_y E fy : R),
     (0 < interval)%Z -> (min_height < max_height)%Z ->
     (- 2 ^ 32 <= min_height)%Z -> (max_height <= 2 ^ 32)%Z ->
     column_pr_over_height_range min_height max_height interval column_tag
       0 i_x i_y E fy = Raise ZeroDivisionError).
Proof.
  repeat apply conj.
  - intros. apply capacity_zero_area, abs_below_overflow. assumption.
  - intros I_x k_x L E _ _ Hk HL. eexists.
    split; [apply (eulerbucklingload_ok 32);
            [exact (in_range_nonzero _ _ Hk) | lia | exact HL] |].
    apply py_div_zero.
  - intros area I_x I_y k_x k_y L E f_y n phi _ _ _ Ha Hkx Hky HL HFe.
    split; [rewrite HFe; apply py_div_zero |].
    apply capacity_zero_stress;
      first [exact (in_range_nonzero _ _ Ha) | exact (in_range_nonzero _ _ Hkx)
            | exact (in_range_nonzero _ _ Hky) | exact HFe
            | apply (in_range_weaken 32 511); [lia | exact HL]].
  - intros E I k L HL Hz.
    apply eulerbucklingload_zero; [apply abs_below_overflow |]; assumption.
  - intros c axis HL Hz Haxis. apply abs_below_overflow in HL.
    destruct (euler_buckling_load_dispatch c axis) as [Hx Hy].
    destruct Haxis as [Hax | Hax].
    + rewrite (Hx Hax). apply eulerbucklingload_zero; [exact HL |].
      destruct Hz as [Hh | [[_ Hk] | [Hay _]]]; auto.
      rewrite Hax in Hay. discriminate Hay.
    + rewrite (Hy Hax). apply eulerbucklingload_zero; [exact HL |].
      destruct Hz as [Hh | [[Hay _] | [_ Hk]]]; auto.
      rewrite Hax in Hay. discriminate Hay.
  - intros sc n HL Harea.
    assert (Hcap : SteelColumn.factored_axial_capacity sc n =
                     Raise ZeroDivisionError).
    { unfold SteelColumn.factored_axial_capacity. rewrite Harea.
      apply capacity_zero_area, abs_below_overflow. exact HL. }
    split; [exact Hcap |].
    unfold SteelColumn.factored_dcr. cbv zeta. rewrite Hcap. reflexivity.
  - intros min_height max_height interval column_tag i_x i_y E fy
           Hstep Hlt Hlo Hhi.
    assert (Hmin : (Z.abs min_height <= 2 ^ 511)%Z).
    { apply Z.le_trans with (2 ^ 32)%Z; [lia |].
      apply Z.pow_le_mono_r; lia. }
    rewrite column_pr_over_height_range_unfold.
    rewrite py_range_positive_step, bind_Ok by assumption.
    unfold sweep_heights.
    pose proof (ceil_div_spec (max_height - min_height) interval Hstep) as Hc.
    destruct (Z.to_nat (Z.max 0 (ceil_div (max_height - min_height) interval)))
      as [| count] eqn:Hcount; [nia |].
    cbn [seq map mapM].
    change (capacity_at_height 0 i_x i_y E fy (min_height + Z.of_nat 0 * interval))
      with (factored_axial_capacity 0 i_x i_y 1 1
              (IZR (min_height + Z.of_nat 0 * interval)) E fy 1.34 phi_default).
    rewrite capacity_zero_area; [reflexivity |].
    apply abs_below_overflow.
    replace (min_height + Z.of_nat 0 * interval)%Z with min_height by lia.
    apply (IZR_abs_bound min_height 511). exact Hmin.
Qed.

Lemma division_by_zero_propagates_witness :
  factored_axial_capacity 1 0 1 1 1 1 1 1 1 1 = Raise ZeroDivisionError /\
  Column.euler_buckling_load (Column.mk 0 1 1 1 1 1 1) "x" =
    Raise ZeroDivisionError /\
  column_pr_over_height_range 1 3 1 "Column A" 0 1 1 1 1 =
    Raise ZeroDivisionError.
Proof.
  destruct division_by_zero_propagates
    as (_ & _ & Hstress & _ & Haxis & _ & Hsweep).
  split; [| split].
  - apply Hstress;
      try apply in_range_one;
      try (rewrite ?Rabs_R0, ?Rabs_R1; pose proof (pow2_ge_1 32); lra).
    pose proof PI2_pos as HPI.
    assert (H0 : buckling_stress 1 0 1 1 1 = 0) by (unfold buckling_stress; field).
    assert (H1 : buckling_stress 1 1 1 1 1 = PI ^ 2) by (unfold buckling_stress; field).
    unfold governing_stress. rewrite H0, H1. apply Rmin_left. lra.
  - apply Haxis; [| left | left]; try reflexivity.
    cbn [Column.height]. rewrite Rabs_R0. left. apply pow2_pos.
  - apply Hsweep; try reflexivity; apply Z.leb_le; reflexivity.
Defined.

(** C6 (as stated) fails for a very tall column: with [area = 0] and a
    height of [2^600] the square of the height is beyond the float range
    and the call ends in [OverflowError], before any division. *)
Lemma zero_area_at_huge_height_overflows :
  factored_axial_capacity 0 1 1 1 1 (2 ^ 600) 1 1 1 1 = Raise OverflowError.
Proof.
  unfold factored_axial_capacity.
  rewrite eulerbucklingload_overflow; [reflexivity |].
  rewrite Rabs_pos_eq by (left; apply pow2_pos).
  apply pow2_le. lia.
Qed.


(** * Further properties of the column functions *)

(** ** Radius of gyration and Euler load *)

(** [radius_of_gyration(I, A)] has three outcomes: division by zero for
    [A = 0], a domain error of [sqrt] for a negative quotient of ordinary
    magnitude, and otherwise the non-negative root [sqrt (I / A)].  The
    method of a column of area 0 fails the same way on either axis. *)
Theorem radius_of_gyration_outcomes (I A : R) :
  (A = 0 -> radius_of_gyration I A = Raise ZeroDivisionError) /\
  (in_range 32 I -> in_range 32 A -> I / A < 0 ->
   radius_of_gyration I A = Raise ValueError) /\
  (A <> 0 -> 0 <= I / A ->
   exists r, radius_of_gyration I A = Ok r /\ r = sqrt (I / A) /\ 0 <= r) /\
  (forall (c : Column.t) (axis : string),
     Column.area c = 0 ->
     lower axis = "x"%string \/ lower axis = "y"%string ->
     Column.radius_of_gyration c axis = Raise ZeroDivisionError).
Proof.
  unfold radius_of_gyration. repeat apply conj.
  - intros ->. rewrite py_div_zero. reflexivity.
  - intros _ HA Hq.
    rewrite py_div_ok, bind_Ok by exact (in_range_nonzero _ _ HA).
    apply py_sqrt_neg. assumption.
  - intros HA Hq. rewrite py_div_ok, bind_Ok by assumption.
    exists (sqrt (I / A)). split; [apply py_sqrt_ok; assumption |].
    split; [reflexivity | apply sqrt_pos].
  - intros c axis Harea Haxis.
    destruct (radius_of_gyration_dispatch c axis) as [Hx Hy].
    destruct Haxis as [Hax | Hax]; [rewrite (Hx Hax) | rewrite (Hy Hax)];
      unfold radius_of_gyration; rewrite Harea, py_div_zero; reflexivity.
Qed.

Lemma in_range_minus_one : in_range 32 (-1).
Proof. apply (in_range_opp 32 1), in_range_one. Qed.

Lemma radius_of_gyration_outcomes_witness :
  radius_of_gyration (-1) 1 = Raise ValueError /\
  (exists r, radius_of_gyration 4 1 = Ok r /\ r = sqrt (4 / 1) /\ 0 <= r) /\
  Column.radius_of_gyration (Column.mk 0 0 0 0 0 0 0) "X" =
    Raise ZeroDivisionError.
Proof.
  destruct (radius_of_gyration_outcomes (-1) 1) as (_ & Hneg & _ & Hcol).
  destruct (radius_of_gyration_outcomes 4 1) as (_ & _ & Hpos & _).
  split; [| split].
  - apply Hneg; [apply in_range_minus_one | apply in_range_one | lra].
  - apply Hpos; lra.
  - apply Hcol; [reflexivity | left; reflexivity].
Defined.

(** [eulerbucklingload] over the float range of the height: for a height
    of magnitude [2^512] or more the square overflows and the call ends in
    [OverflowError] (with [k] non-zero); for a magnitude of [2^-538] or
    less the square is [0.0] and the call ends in [ZeroDivisionError];
    with [k] and [L] between [2^-32] and [2^32] in magnitude and [E] and
    [I] of magnitude at most [2^32] it returns [pi^2 E I / (k L^2)].  The sign of the height is immaterial. *)
Theorem eulerbucklingload_outcomes (E I k L : R) :
  (k <> 0 -> 2 ^ 512 <= Rabs L ->
   eulerbucklingload E I k L = Raise OverflowError) /\
  (Rabs L <= / 2 ^ 538 ->
   eulerbucklingload E I k L = Raise ZeroDivisionError) /\
  (Rabs E <= 2 ^ 32 -> Rabs I <= 2 ^ 32 -> in_range 32 k -> in_range 32 L ->
   eulerbucklingload E I k L = Ok (PI ^ 2 * E * I / (k * L ^ 2))) /\
  eulerbucklingload E I k (- L) = eulerbucklingload E I k L.
Proof.
  repeat apply conj.
  - intros _ HL. apply eulerbucklingload_overflow. exact HL.
  - apply eulerbucklingload_underflow.
  - intros _ _ Hk HL. apply (eulerbucklingload_ok 32);
      [exact (in_range_nonzero _ _ Hk) | lia | exact HL].
  - apply eulerbucklingload_neg.
Qed.

Lemma eulerbucklingload_outcomes_witness :
  eulerbucklingload 1 1 1 (2 ^ 600) = Raise OverflowError /\
  eulerbucklingload 1 1 1 (/ 2 ^ 600) = Raise ZeroDivisionError /\
  eulerbucklingload 1 1 1 1 = Ok (PI ^ 2 * 1 * 1 / (1 * 1 ^ 2)).
Proof.
  split; [| split].
  - apply (proj1 (eulerbucklingload_outcomes 1 1 1 (2 ^ 600))); [lra |].
    rewrite Rabs_pos_eq by (left; apply pow2_pos). apply pow2_le. lia.
  - apply (proj1 (proj2 (eulerbucklingload_outcomes 1 1 1 (/ 2 ^ 600)))).
    rewrite Rabs_pos_eq by (left; apply Rinv_0_lt_compat, pow2_pos).
    apply inv_pow2_le. lia.
  - apply (proj1 (proj2 (proj2 (eulerbucklingload_outcomes 1 1 1 1))));
      try apply in_range_one;
      rewrite Rabs_R1; apply pow2_ge_1.
Defined.

(** ** The exceptions of [factored_axial_capacity] *)

Lemma py_div_cases (x y : R) :
  py_div x y = Raise ZeroDivisionError \/ py_div x y = Ok (x / y).
Proof. unfold py_div. destruct (Req_dec_T y 0); auto. Qed.

Lemma pow_range_cases (r : R) :
  pow_range r = Raise OverflowError \/ pow_range r = Ok 0 \/ pow_range r = Ok r.
Proof.
  unfold pow_range.
  destruct (Rle_dec float_huge (Rabs r)); [auto |].
  destruct (Rle_dec (Rabs r) float_tiny); auto.
Qed.

Lemma py_pow_nonneg_base (x y : R) :
  0 <= x ->
  py_pow x y = Raise ZeroDivisionError \/
  py_pow x y = Raise OverflowError \/
  exists a, py_pow x y = Ok a /\ 0 <= a.
Proof.
  intros Hx. destruct (Req_dec_T y 0) as [-> | Hy].
  { right; right. exists 1.
    split; [apply py_pow_exp_zero; reflexivity | lra]. }
  destruct Hx as [Hx | <-].
  - rewrite py_pow_pos by assumption.
    destruct (pow_range_cases (Rpower x y)) as [-> | [-> | ->]].
    + auto.
    + right; right. exists 0. split; [reflexivity | lra].
    + right; right. eexists. split; [reflexivity |]. left. apply exp_pos.
  - destruct (Rlt_dec y 0) as [Hneg | Hpos].
    + left. apply py_pow_zero_base_negative. exact Hneg.
    + right; right. exists 0. split; [apply py_pow_zero_base; lra | lra].
Qed.

Lemma py_sqrt_cases (x : R) :
  py_sqrt x = Raise ValueError \/ (py_sqrt x = Ok (sqrt x) /\ 0 <= sqrt x).
Proof.
  unfold py_sqrt. destruct (Rlt_dec x 0); [auto |].
  right. split; [reflexivity | apply sqrt_pos].
Qed.

(** Whatever the arguments, a call of [factored_axial_capacity] that
    fails ends in one of three exceptions: [ZeroDivisionError], the domain
    error of [sqrt], or the [OverflowError] of a power; an overflow at
    [lambda ** (2n)] is met with every input positive. *)
Theorem factored_axial_capacity_failures
    (area I_x I_y k_x k_y L E f_y n phi : R) (e : exn) :
  factored_axial_capacity area I_x I_y k_x k_y L E f_y n phi = Raise e ->
  e = ZeroDivisionError \/ e = ValueError \/ e = OverflowError.
Proof.
  unfold factored_axial_capacity.
  destruct (eulerbucklingload_cases E I_x k_x L) as [-> | [-> | [Px ->]]];
    [rewrite bind_Raise; intros [= <-]; auto ..|].
  rewrite bind_Ok.
  destruct (py_div_cases Px area) as [-> | ->];
    [rewrite bind_Raise; intros [= <-]; auto |].
  rewrite bind_Ok.
  destruct (eulerbucklingload_cases E I_y k_y L) as [-> | [-> | [Py ->]]];
    [rewrite bind_Raise; intros [= <-]; auto ..|].
  rewrite bind_Ok.
  destruct (py_div_cases Py area) as [-> | ->];
    [rewrite bind_Raise; intros [= <-]; auto |].
  rewrite bind_Ok. cbv zeta.
  destruct (py_div_cases f_y (py_min (Px / area) (Py / area))) as [-> | ->];
    [rewrite bind_Raise; intros [= <-]; auto |].
  rewrite bind_Ok.
  destruct (py_sqrt_cases (f_y / py_min (Px / area) (Py / area)))
    as [-> | [-> Hlam]];
    [rewrite bind_Raise; intros [= <-]; auto |].
  rewrite bind_Ok.
  destruct (py_pow_nonneg_base _ (2 * n) Hlam) as [-> | [-> | (a & -> & Ha)]];
    [rewrite bind_Raise; intros [= <-]; auto ..|].
  rewrite bind_Ok.
  destruct (py_div_cases (-1) n) as [-> | ->];
    [rewrite bind_Raise; intros [= <-]; auto |].
  rewrite bind_Ok.
  destruct (float_add_one_bounds a Ha) as [Hbase _].
  destruct (py_pow_nonneg_base (float_add_one a) (-1 / n) ltac:(lra))
    as [-> | [-> | (b & -> & _)]];
    [rewrite bind_Raise; intros [= <-]; auto ..|].
  rewrite bind_Ok. discriminate.
Qed.

Lemma factored_axial_capacity_failures_witness :
  OverflowError = ZeroDivisionError \/ OverflowError = ValueError \/
  OverflowError = OverflowError.
Proof.
  exact (factored_axial_capacity_failures 1 1 1 1 1 10 1 1 1000 1 OverflowError
           capacity_overflows_for_large_n).
Defined.

(** ** Symmetries *)


(** The height enters only through its square: a negative height is not
    rejected and gives the outcome of its absolute value. *)
Theorem factored_axial_capacity_even_in_height
    (area I_x I_y k_x k_y L E f_y n phi : R) :
  factored_axial_capacity area I_x I_y k_x k_y (- L) E f_y n phi =
  factored_axial_capacity area I_x I_y k_x k_y L E f_y n phi /\
  factored_axial_capacity area I_x I_y k_x k_y (Rabs L) E f_y n phi =
  factored_axial_capacity area I_x I_y k_x k_y L E f_y n phi.
Proof.
  assert (Hneg : factored_axial_capacity area I_x I_y k_x k_y (- L) E f_y n phi =
                 factored_axial_capacity area I_x I_y k_x k_y L E f_y n phi).
  { unfold factored_axial_capacity.
    rewrite !eulerbucklingload_neg. reflexivity. }
  split; [exact Hneg |].
  unfold Rabs. destruct (Rcase_abs L); [exact Hneg | reflexivity].
Qed.

(** ** The resistance factor [phi] *)

Ltac step_bind :=
  match goal with
  | |- context [?m ≫= _] =>
      lazymatch m with
      | context [_ ≫= _] => fail
      | Ok _ => fail
      | Raise _ => fail
      | _ => destruct m; rewrite ?bind_Ok, ?bind_Raise; cbv beta zeta
      end
  end.

(** The steps of [factored_axial_capacity] that precede the last
    product. *)
Definition reduction_steps (area I_x I_y k_x k_y L E f_y n : R) : result R :=
  P_E_x ← eulerbucklingload E I_x k_x L;
  F_e_x ← py_div P_E_x area;
  P_E_y ← eulerbucklingload E I_y k_y L;
  F_e_y ← py_div P_E_y area;
  let F_e := py_min F_e_x F_e_y in
  q ← py_div f_y F_e;
  lamb ← py_sqrt q;
  a ← py_pow lamb (2 * n);
  e ← py_div (-1) n;
  py_pow (float_add_one a) e.

(** [phi] is read only by the last product: what precedes it decides
    whether the call returns. *)
Lemma capacity_outcome_shape (area I_x I_y k_x k_y L E f_y n phi : R) :
  factored_axial_capacity area I_x I_y k_x k_y L E f_y n phi =
    (b ← reduction_steps area I_x I_y k_x k_y L E f_y n;
     Ok (phi * area * f_y * b)).
Proof.
  unfold factored_axial_capacity, reduction_steps.
  repeat (step_bind; try reflexivity).
Qed.

(** Whether [factored_axial_capacity] returns, and the exception it ends
    in, do not depend on [phi].  The [SteelColumn] methods never read the
    [phi] field: the capacity and the demand/capacity ratio of a column
    are those of the free function at [phi = 0.9], whatever the field
    holds. *)
Theorem capacity_and_phi
    (area I_x I_y k_x k_y L E f_y n phi phi' : R) :
  (forall e, factored_axial_capacity area I_x I_y k_x k_y L E f_y n phi = Raise e ->
             factored_axial_capacity area I_x I_y k_x k_y L E f_y n phi' =
               Raise e) /\
  (forall P, factored_axial_capacity area I_x I_y k_x k_y L E f_y n phi = Ok P ->
             exists P',
               factored_axial_capacity area I_x I_y k_x k_y L E f_y n phi' =
                 Ok P') /\
  (forall (tag : string) (load : Load.t) (height : R),
     let sc := SteelColumn.mk (Column.mk height area I_x I_y k_x k_y E)
                 tag f_y load phi in
     SteelColumn.factored_axial_capacity sc n =
       factored_axial_capacity area I_x I_y k_x k_y height E f_y n 0.9 /\
     SteelColumn.factored_dcr sc n =
       SteelColumn.factored_dcr
         (SteelColumn.mk (Column.mk height area I_x I_y k_x k_y E)
            tag f_y load 0.9) n).
Proof.
  repeat apply conj.
  - intros e. rewrite !capacity_outcome_shape.
    destruct (reduction_steps area I_x I_y k_x k_y L E f_y n) as [b | e'];
      [discriminate | exact (fun H => H)].
  - intros P. rewrite !capacity_outcome_shape.
    destruct (reduction_steps area I_x I_y k_x k_y L E f_y n) as [b | e'];
      [| discriminate].
    intros _. eexists. reflexivity.
  - intros tag load height sc. split; reflexivity.
Qed.

Lemma capacity_and_phi_witness :
  factored_axial_capacity 1 1 1 1 1 10 1 1 1000 0.5 = Raise OverflowError /\
  SteelColumn.factored_axial_capacity
    (SteelColumn.mk unit_column "C1" 1 (Load.mk 1 1 0 0 0) 0.5) 1 =
    factored_axial_capacity 1 1 1 1 1 1 1 1 1 0.9.
Proof.
  split.
  - apply (proj1 (capacity_and_phi 1 1 1 1 1 10 1 1 1000 1 0.5)).
    apply capacity_overflows_for_large_n.
  - apply (proj2 (proj2 (capacity_and_phi 1 1 1 1 1 1 1 1 1 0.5 0.5))
             "C1"%string (Load.mk 1 1 0 0 0) 1).
Defined.

(** ** Stiffness *)

Lemma buckling_stress_monotone (area I I' k k' L E E' : R) :
  0 < area -> 0 < I -> 0 < k' -> 0 < L -> 0 < E ->
  I <= I' -> k' <= k -> E <= E' ->
  buckling_stress area I k L E <= buckling_stress area I' k' L E'.
Proof.
  intros Ha HI Hk' HL HE HII Hkk HEE.
  unfold buckling_stress, Rdiv.
  pose proof PI2_pos as HPI.
  assert (HL2 : 0 < L ^ 2) by (apply pow_lt; assumption).
  apply Rmult_le_compat_r; [left; apply Rinv_0_lt_compat; assumption |].
  apply Rmult_le_compat.
  - apply Rlt_le, Rmult_lt_0_compat; [apply Rmult_lt_0_compat |]; assumption.
  - left. apply Rinv_0_lt_compat, Rmult_lt_0_compat; lra.
  - apply Rmult_le_compat; try lra.
    + apply Rlt_le, Rmult_lt_0_compat; assumption.
    + apply Rmult_le_compat_l; lra.
  - apply Rinv_le_contravar; [apply Rmult_lt_0_compat; assumption |].
    apply Rmult_le_compat_r; lra.
Qed.

(** A stiffer column is never weaker: with both sets of inputs between
    [2^-32] and [2^32] and [n] between 1 and 4, raising [E], [Ix] or
    [Iy], or lowering [kx] or [ky], does not lower the capacity. *)
Theorem capacity_monotone_in_stiffness
    (area I_x I_y k_x k_y L E f_y n phi I_x' I_y' k_x' k_y' E' : R) :
  in_box area -> in_box I_x -> in_box I_y -> in_box k_x -> in_box k_y ->
  in_box L -> in_box E -> in_box f_y -> 1 <= n <= 4 -> 0 < phi ->
  in_box I_x' -> in_box I_y' -> in_box k_x' -> in_box k_y' -> in_box E' ->
  I_x <= I_x' -> I_y <= I_y' -> k_x' <= k_x -> k_y' <= k_y -> E <= E' ->
  exists P P' : R,
    factored_axial_capacity area I_x I_y k_x k_y L E f_y n phi = Ok P /\
    factored_axial_capacity area I_x' I_y' k_x' k_y' L E' f_y n phi = Ok P' /\
    P <= P'.
Proof.
  intros Ba Bix Biy Bkx Bky BL BE Bfy Hn Hphi Bix' Biy' Bkx' Bky' BE'
         HIx HIy Hkx Hky HEE.
  pose proof (in_box_pos _ Ba) as Ha. pose proof (in_box_pos _ Bix) as Hix.
  pose proof (in_box_pos _ Biy) as Hiy. pose proof (in_box_pos _ Bkx) as Hkx0.
  pose proof (in_box_pos _ Bky) as Hky0. pose proof (in_box_pos _ BL) as HL.
  pose proof (in_box_pos _ BE) as HE. pose proof (in_box_pos _ Bfy) as Hfy.
  pose proof (in_box_pos _ Bkx') as Hkx'. pose proof (in_box_pos _ Bky') as Hky'.
  eexists _, _.
  split; [apply capacity_in_box; assumption |].
  split; [apply capacity_in_box; assumption |].
  apply Rmult_le_compat_l.
  { apply Rlt_le, Rmult_lt_0_compat; [apply Rmult_lt_0_compat |]; assumption. }
  unfold reduction. apply reduction_factor_antitone; [lra | |].
  - apply slenderness_pos; lra.
  - unfold slenderness. apply sqrt_le_1_alt.
    pose proof (governing_stress_pos area I_x I_y k_x k_y E
                  ltac:(lra) ltac:(lra) ltac:(lra) ltac:(lra) ltac:(lra)
                  ltac:(lra) L HL) as HFe.
    unfold Rdiv. apply Rmult_le_compat_l; [lra |].
    apply Rinv_le_contravar; [assumption |].
    unfold governing_stress.
    apply Rle_trans with
      (Rmin (buckling_stress area I_x' k_x' L E') (buckling_stress area I_y k_y L E)).
    + apply Rle_min_compat_r, buckling_stress_monotone; assumption.
    + apply Rle_min_compat_l, buckling_stress_monotone; assumption.
Qed.

Lemma capacity_monotone_in_stiffness_witness :
  exists P P' : R,
    factored_axial_capacity 1 1 1 2 2 1 1 1 1 1 = Ok P /\
    factored_axial_capacity 1 2 2 1 1 1 2 1 1 1 = Ok P' /\
    P <= P'.
Proof.
  apply (capacity_monotone_in_stiffness 1 1 1 2 2 1 1 1 1 1 2 2 1 1 2);
    first [apply in_box_one | apply in_box_two | lra].
Defined.

(** ** Short columns: the yield limit *)

(** For a column so short that [lambda^(2n)] is at most [2^-54] the sum
    [1 + lambda^(2n)] is [1.0], the reduction factor is [1.0] and the
    call returns [phi * area * fy] itself. *)
Theorem short_column_yield_capacity
    (area I_x I_y k_x k_y L E f_y n phi : R) :
  let F_e := governing_stress area I_x I_y k_x k_y L E in
  let lamb := sqrt (f_y / F_e) in
  in_box area -> in_box I_x -> in_box I_y -> in_box k_x -> in_box k_y ->
  in_box L -> in_box E -> in_box f_y -> 1 <= n <= 4 ->
  Rpower lamb (2 * n) <= / 2 ^ 54 ->
  factored_axial_capacity area I_x I_y k_x k_y L E f_y n phi =
    Ok (phi * area * f_y).
Proof.
  intros F_e lamb Ha Hix Hiy Hkx Hky HL HE Hfy Hn Hsmall.
  rewrite capacity_in_box by assumption. f_equal.
  unfold reduction, slenderness. fold F_e. fold lamb.
  assert (Hpos : 0 < Rpower lamb (2 * n)) by apply exp_pos.
  assert (Hulp : Rpower lamb (2 * n) <= float_half_ulp).
  { eapply Rle_trans; [exact Hsmall |].
    unfold float_half_ulp. apply inv_pow2_le. lia. }
  unfold float_add_one. rewrite Rabs_pos_eq by lra.
  destruct (Rle_dec (Rpower lamb (2 * n)) float_half_ulp); [| contradiction].
  rewrite Rpower_one_base. ring.
Qed.

Lemma short_column_small_slenderness (L : R) :
  0 < L -> L <= / 2 ^ 27 ->
  Rpower (sqrt (1 / governing_stress 1 1 1 1 1 L 1)) (2 * 1) <= / 2 ^ 54.
Proof.
  intros HL Hsmall.
  pose proof PI2_pos as HPI. pose proof PI2_3_2 as HPI3.
  assert (HL2 : 0 < L ^ 2) by (apply pow_lt; exact HL).
  assert (Hq : 1 / governing_stress 1 1 1 1 1 L 1 = L ^ 2 / PI ^ 2).
  { unfold governing_stress, buckling_stress.
    rewrite Rmin_left by lra. field. split; lra. }
  assert (Hqpos : 0 < L ^ 2 / PI ^ 2) by (apply Rdiv_lt_0_compat; assumption).
  replace (2 * 1) with (INR 2) by (simpl; lra).
  rewrite Rpower_pow by (apply sqrt_lt_R0; rewrite Hq; exact Hqpos).
  rewrite pow2_sqrt by (rewrite Hq; left; exact Hqpos).
  rewrite Hq.
  apply Rle_trans with (L ^ 2).
  - apply Rle_trans with (L ^ 2 / 1); [| right; field].
    unfold Rdiv. apply Rmult_le_compat_l; [lra |].
    apply Rinv_le_contravar; nra.
  - apply Rle_trans with ((/ 2 ^ 27) ^ 2).
    + apply pow_incr. split; [lra | exact Hsmall].
    + rewrite pow_inv, <- pow_mult. apply inv_pow2_le. lia.
Qed.

Lemma short_column_yield_capacity_witness :
  factored_axial_capacity 1 1 1 1 1 (/ 2 ^ 30) 1 1 1 0.9 = Ok (0.9 * 1 * 1).
Proof.
  pose proof (Rinv_0_lt_compat _ (pow2_pos 30)) as HL.
  apply (short_column_yield_capacity 1 1 1 1 1 (/ 2 ^ 30) 1 1 1 0.9).
  - apply in_box_one.
  - apply in_box_one.
  - apply in_box_one.
  - apply in_box_one.
  - apply in_box_one.
  - split; [apply inv_pow2_le; lia |].
    apply Rle_trans with 1; [apply inv_pow2_le_1 | apply pow2_ge_1].
  - apply in_box_one.
  - apply in_box_one.
  - lra.
  - apply short_column_small_slenderness; [exact HL | apply inv_pow2_le; lia].
Defined.

(** ** The factored load *)

Lemma max_factored_load_Rmax (D L S W E : R) :
  max_factored_load (Load.mk D L S W E) =
    Rmax (Rmax (Rmax (1.4 * D) (1.25 * D + 1.5 * L))
               (1.25 * D + 1.5 * L + 1.0 * S))
         (1.25 * D + 1.5 * S + 1.0 * L).
Proof.
  unfold max_factored_load, factored_loads. cbn [Load.D Load.L Load.S].
  rewrite !py_max_cons. reflexivity.
Qed.

Lemma max4_upper (c1 c2 c3 c4 : R) :
  let M := Rmax (Rmax (Rmax c1 c2) c3) c4 in
  c1 <= M /\ c2 <= M /\ c3 <= M /\ c4 <= M.
Proof.
  cbv zeta.
  pose proof (Rmax_l c1 c2). pose proof (Rmax_r c1 c2).
  pose proof (Rmax_l (Rmax c1 c2) c3). pose proof (Rmax_r (Rmax c1 c2) c3).
  pose proof (Rmax_l (Rmax (Rmax c1 c2) c3) c4).
  pose proof (Rmax_r (Rmax (Rmax c1 c2) c3) c4).
  repeat split; lra.
Qed.

Lemma max4_least (c1 c2 c3 c4 z : R) :
  c1 <= z -> c2 <= z -> c3 <= z -> c4 <= z ->
  Rmax (Rmax (Rmax c1 c2) c3) c4 <= z.
Proof. intros H1 H2 H3 H4. repeat apply Rmax_lub; assumption. Qed.

(** The factored load does not decrease when the dead, live and snow
    components grow. *)
Theorem max_factored_load_monotone (D L S W E D' L' S' W' E' : R) :
  D <= D' -> L <= L' -> S <= S' ->
  max_factored_load (Load.mk D L S W E) <=
  max_factored_load (Load.mk D' L' S' W' E').
Proof.
  intros HD HL HS. rewrite !max_factored_load_Rmax.
  match goal with
  | |- _ <= Rmax (Rmax (Rmax ?c1 ?c2) ?c3) ?c4 =>
      destruct (max4_upper c1 c2 c3 c4) as (H1 & H2 & H3 & H4)
  end.
  apply max4_least; lra.
Qed.

Lemma max_factored_load_monotone_witness :
  max_factored_load (Load.mk 1 2 0 0 0) <= max_factored_load (Load.mk 2 2 1 5 5).
Proof. apply max_factored_load_monotone; lra. Defined.

(** With a non-negative snow load the combination [1.25 D + 1.5 L] never
    governs on its own; without snow and with a non-negative live load
    the factored load is the larger of [1.4 D] and [1.25 D + 1.5 L]. *)
Theorem max_factored_load_without_snow (D L S W E : R) :
  (0 <= S ->
   max_factored_load (Load.mk D L S W E) =
     Rmax (1.4 * D)
          (Rmax (1.25 * D + 1.5 * L + S) (1.25 * D + 1.5 * S + L))) /\
  (0 <= L ->
   max_factored_load (Load.mk D L 0 W E) =
     Rmax (1.4 * D) (1.25 * D + 1.5 * L)).
Proof.
  split; intros Hnn; rewrite max_factored_load_Rmax.
  - destruct (max4_upper (1.4 * D) (1.25 * D + 1.5 * L)
                (1.25 * D + 1.5 * L + 1.0 * S) (1.25 * D + 1.5 * S + 1.0 * L))
      as (H1 & H2 & H3 & H4).
    pose proof (Rmax_l (1.4 * D)
                  (Rmax (1.25 * D + 1.5 * L + S) (1.25 * D + 1.5 * S + L))) as G1.
    pose proof (Rmax_r (1.4 * D)
                  (Rmax (1.25 * D + 1.5 * L + S) (1.25 * D + 1.5 * S + L))) as G2.
    pose proof (Rmax_l (1.25 * D + 1.5 * L + S) (1.25 * D + 1.5 * S + L)) as G3.
    pose proof (Rmax_r (1.25 * D + 1.5 * L + S) (1.25 * D + 1.5 * S + L)) as G4.
    apply Rle_antisym.
    + apply max4_least; lra.
    + repeat apply Rmax_lub; lra.
  - destruct (max4_upper (1.4 * D) (1.25 * D + 1.5 * L)
                (1.25 * D + 1.5 * L + 1.0 * 0) (1.25 * D + 1.5 * 0 + 1.0 * L))
      as (H1 & H2 & H3 & H4).
    pose proof (Rmax_l (1.4 * D) (1.25 * D + 1.5 * L)) as G1.
    pose proof (Rmax_r (1.4 * D) (1.25 * D + 1.5 * L)) as G2.
    apply Rle_antisym.
    + apply max4_least; lra.
    + apply Rmax_lub; lra.
Qed.

Lemma max_factored_load_without_snow_witness :
  max_factored_load (Load.mk 820000 1045100 0 0 0) =
    Rmax (1.4 * 820000) (1.25 * 820000 + 1.5 * 1045100).
Proof.
  apply (proj2 (max_factored_load_without_snow 820000 1045100 0 0 0)). lra.
Defined.

(** ** columns.py: [dl_str_to_load] *)

(** The two exceptions of [dl_str_to_load]: an index past the end of the
    list, and a string [float] does not accept. *)
Inductive parse_exn : Type := IndexError | FloatValueError.

Inductive parsed (A : Type) : Type :=
| Parsed (a : A)
| ParseRaise (e : parse_exn).

Arguments Parsed {A} a.
Arguments ParseRaise {A} e.

Section DeadLiveStrings.
(** [float(s)] on a string: the number it denotes, or [None] where
    Python raises [ValueError]. *)
Variable float_of_str : string -> option R.

(** [dead, live = float(dl_str[0]), float(dl_str[1])], evaluated from
    left to right, then [Load(dead, live, 0, 0, 0)]. *)
Definition dl_str_to_load (dl_str : list string) : parsed Load.t :=
  match dl_str !! 0%nat with
  | None => ParseRaise IndexError
  | Some s0 =>
      match float_of_str s0 with
      | None => ParseRaise FloatValueError
      | Some dead =>
          match dl_str !! 1%nat with
          | None => ParseRaise IndexError
          | Some s1 =>
              match float_of_str s1 with
              | None => ParseRaise FloatValueError
              | Some live => Parsed (Load.mk dead live 0 0 0)
              end
          end
      end
  end.

(** [dl_str_to_load] returns a load exactly when the list has at least
    two entries and [float] accepts the first two; the load then carries
    these two numbers as [D] and [L] and zero elsewhere, and entries past
    the second are ignored.  A list that is too short raises
    [IndexError], unless its only entry is rejected by [float] first. *)
Theorem dl_str_to_load_outcomes (dl_str : list string) :
  (forall ld : Load.t,
     dl_str_to_load dl_str = Parsed ld <->
     exists s0 s1 rest dead live,
       dl_str = s0 :: s1 :: rest /\
       float_of_str s0 = Some dead /\ float_of_str s1 = Some live /\
       ld = Load.mk dead live 0 0 0) /\
  (dl_str = [] -> dl_str_to_load dl_str = ParseRaise IndexError) /\
  (forall s0, dl_str = [s0] ->
     dl_str_to_load dl_str =
       match float_of_str s0 with
       | Some _ => ParseRaise IndexError
       | None => ParseRaise FloatValueError
       end) /\
  (forall s0 s1 rest,
     dl_str = s0 :: s1 :: rest ->
     dl_str_to_load dl_str = dl_str_to_load [s0; s1]).
Proof using Type.
  repeat apply conj.
  - intros ld. unfold dl_str_to_load. split.
    + destruct dl_str as [| s0 [| s1 rest]]; cbn; try discriminate.
      * destruct (float_of_str s0); discriminate.
      * destruct (float_of_str s0) as [dead |] eqn:H0; [| discriminate].
        destruct (float_of_str s1) as [live |] eqn:H1; [| discriminate].
        intros [= <-]. exists s0, s1, rest, dead, live. auto.
    + intros (s0 & s1 & rest & dead & live & -> & H0 & H1 & ->).
      cbn. rewrite H0, H1. reflexivity.
  - intros ->. reflexivity.
  - intros s0 ->. unfold dl_str_to_load. cbn.
    destruct (float_of_str s0); reflexivity.
  - intros s0 s1 rest ->. reflexivity.
Qed.

(** The factored load of a parsed dead/live pair with a non-negative live
    load is the larger of [1.4 D] and [1.25 D + 1.5 L]. *)
Theorem dl_str_to_load_factored (dl_str : list string) (ld : Load.t) :
  dl_str_to_load dl_str = Parsed ld -> 0 <= Load.L ld ->
  Load.S ld = 0 /\ Load.W ld = 0 /\ Load.E ld = 0 /\
  max_factored_load ld =
    Rmax (1.4 * Load.D ld) (1.25 * Load.D ld + 1.5 * Load.L ld).
Proof using Type.
  unfold dl_str_to_load. intros Hld HL.
  destruct (dl_str !! 0%nat) as [s0 |]; [| discriminate].
  destruct (float_of_str s0) as [dead |]; [| discriminate].
  destruct (dl_str !! 1%nat) as [s1 |]; [| discriminate].
  destruct (float_of_str s1) as [live |]; [| discriminate].
  injection Hld as <-. cbn [Load.D Load.L Load.S Load.W Load.E] in *.
  repeat split.
  rewrite max_factored_load_Rmax.
  destruct (max4_upper (1.4 * dead) (1.25 * dead + 1.5 * live)
              (1.25 * dead + 1.5 * live + 1.0 * 0)
              (1.25 * dead + 1.5 * 0 + 1.0 * live)) as (H1 & H2 & H3 & H4).
  pose proof (Rmax_l (1.4 * dead) (1.25 * dead + 1.5 * live)) as G1.
  pose proof (Rmax_r (1.4 * dead) (1.25 * dead + 1.5 * live)) as G2.
  apply Rle_antisym.
  - apply max4_least; lra.
  - apply Rmax_lub; lra.
Qed.
End DeadLiveStrings.

Lemma dl_str_to_load_outcomes_witness :
  dl_str_to_load (fun _ => Some 1) [] = ParseRaise IndexError /\
  dl_str_to_load (fun _ => Some 1) ["9.2"; "10.3"; "0"]%string =
    dl_str_to_load (fun _ => Some 1) ["9.2"; "10.3"]%string.
Proof.
  split.
  - exact (proj1 (proj2 (dl_str_to_load_outcomes (fun _ => Some 1) []))
             eq_refl).
  - exact (proj2 (proj2 (proj2 (dl_str_to_load_outcomes (fun _ => Some 1)
                                  ["9.2"; "10.3"; "0"]%string)))
             _ _ _ eq_refl).
Defined.

Lemma dl_str_to_load_factored_witness :
  max_factored_load (Load.mk 1 1 0 0 0) = Rmax (1.4 * 1) (1.25 * 1 + 1.5 * 1).
Proof.
  apply (dl_str_to_load_factored (fun _ => Some 1) ["1"; "1"]%string
           (Load.mk 1 1 0 0 0)); [reflexivity | simpl; lra].
Defined.

(** ** The resistance curve of a sweep *)

Lemma range_items_lower_bound (start step : Z) (count : nat) (h : Z) :
  (0 < step)%Z -> In h (range_items start step count) -> (start <= h)%Z.
Proof.
  intros Hstep Hin. apply range_items_In in Hin as (i & Hi & ->). nia.
Qed.

Lemma range_items_ascending (step : Z) (count : nat) :
  (0 < step)%Z ->
  forall start : Z,
    (0 < start)%Z ->
    StronglySorted (fun a b : Z => (0 < a < b)%Z) (range_items start step count).
Proof.
  intros Hstep. induction count as [| count IH]; intros start Hstart;
    cbn [range_items]; constructor.
  - apply IH. lia.
  - apply Forall_forall. intros h Hh. apply list_elem_of_In in Hh.
    apply range_items_lower_bound in Hh; lia.
Qed.

Lemma Forall2_transfers_order {A B : Type} (P : A -> B -> Prop)
    (R1 : A -> A -> Prop) (R2 : B -> B -> Prop) :
  (forall x x' y y', R1 x x' -> P x y -> P x' y' -> R2 y y') ->
  forall xs ys,
    Forall2 P xs ys -> StronglySorted R1 xs -> StronglySorted R2 ys.
Proof.
  intros Hstep xs ys HP.
  induction HP as [| x y xs ys Hxy HP IH]; intros Hsorted; constructor.
  - apply IH. inversion Hsorted; assumption.
  - inversion Hsorted as [| ? ? _ Hall]; subst.
    clear IH Hsorted. induction HP as [| x' y' xs ys Hxy' HP IH]; constructor.
    + apply (Hstep x x' y y'); [| assumption | assumption].
      inversion Hall; assumption.
    + apply IH. inversion Hall; assumption.
Qed.

Lemma StronglySorted_weaken {A : Type} (R1 R2 : A -> A -> Prop) (l : list A) :
  (forall a b, R1 a b -> R2 a b) -> StronglySorted R1 l -> StronglySorted R2 l.
Proof.
  intros Himp Hs. induction Hs as [| a l Hs IH Hall]; constructor.
  - exact IH.
  - eapply Forall_impl; [exact Hall | intros b Hb; apply Himp; exact Hb].
Qed.

Lemma Forall2_In_r {A B : Type} (P : A -> B -> Prop) (xs : list A) (ys : list B) (y : B) :
  Forall2 P xs ys -> In y ys -> exists x, In x xs /\ P x y.
Proof.
  intros HP. induction HP as [| x y' xs ys Hxy HP IH]; intros Hin.
  - destruct Hin.
  - destruct Hin as [<- | Hin].
    + exists x. split; [left; reflexivity | exact Hxy].
    + destruct (IH Hin) as (x' & Hx' & HP'). exists x'. split; [right |]; assumption.
Qed.

(** Whenever the sweep returns, it returns one resistance per height. *)
Theorem sweep_sequences_aligned
    (min_height max_height interval : Z) (column_tag : string)
    (area i_x i_y E fy : R) (x_values : list Z) (y_values : list R) :
  column_pr_over_height_range min_height max_height interval column_tag
    area i_x i_y E fy = Ok (x_values, y_values) ->
  py_range min_height max_height interval = Ok x_values /\
  length y_values = length x_values.
Proof.
  rewrite column_pr_over_height_range_unfold.
  destruct (py_range min_height max_height interval) as [xs | e];
    [| discriminate].
  rewrite bind_Ok.
  destruct (mapM _ xs) as [ys | e] eqn:Hys; [| discriminate].
  rewrite bind_Ok. intros [= <- <-].
  split; [reflexivity |].
  apply mapM_Ok_iff in Hys. symmetry. eapply Forall2_length. exact Hys.
Qed.

Lemma sweep_sequences_aligned_witness :
  exists y_values : list R,
    column_pr_over_height_range 1 3 1 "Column A" 1 1 1 1 1 =
      Ok ([1; 2]%Z, y_values) /\
    py_range 1 3 1 = Ok [1; 2]%Z /\
    length y_values = length [1; 2]%Z.
Proof.
  destruct sweep_in_box_example as [y_values Hrun].
  exists y_values. split; [exact Hrun |].
  exact (sweep_sequences_aligned 1 3 1 "Column A" 1 1 1 1 1 _ _ Hrun).
Defined.

(** With a positive step, heights between 1 and [2^32] and section
    parameters between [2^-32] and [2^32] the sweep returns a curve that
    never rises with the height and stays above [0] and at most at
    [0.9 * area * fy]. *)
Theorem sweep_curve_non_increasing
    (min_height max_height interval : Z) (column_tag : string)
    (area i_x i_y E fy : R) :
  (0 < interval)%Z -> (1 <= min_height)%Z -> (max_height <= 2 ^ 32)%Z ->
  in_box area -> in_box i_x -> in_box i_y -> in_box E -> in_box fy ->
  exists x_values y_values,
    column_pr_over_height_range min_height max_height interval column_tag
      area i_x i_y E fy = Ok (x_values, y_values) /\
    StronglySorted (fun a b : Z => (a < b)%Z) x_values /\
    StronglySorted (fun y y' : R => y' <= y) y_values /\
    Forall (fun y => 0 < y <= 0.9 * area * fy) y_values.
Proof.
  intros Hstep Hmin Hmax Ba Bix Biy BE Bfy.
  pose proof (in_box_pos _ Ba) as Ha. pose proof (in_box_pos _ Bix) as Hix.
  pose proof (in_box_pos _ Biy) as Hiy. pose proof (in_box_pos _ BE) as HE.
  pose proof (in_box_pos _ Bfy) as Hfy.
  destruct (sweep_returns_in_box min_height max_height interval
              column_tag area i_x i_y E fy) as [ys Hys]; try assumption.
  exists (sweep_heights min_height max_height interval), ys.
  split; [exact Hys |].
  rewrite column_pr_over_height_range_unfold in Hys.
  rewrite py_range_positive_step, bind_Ok in Hys by assumption.
  destruct (mapM _ _) as [ys' | e] eqn:Hmap; [| discriminate].
  rewrite bind_Ok in Hys. injection Hys as <-.
  apply mapM_Ok_iff in Hmap.
  assert (Hasc : StronglySorted (fun a b : Z => (0 < a < b)%Z)
                   (sweep_heights min_height max_height interval)).
  { unfold sweep_heights.
    rewrite <- range_length_ceil, <- range_items_map by assumption.
    apply range_items_ascending; [assumption | lia]. }
  assert (Hin : forall h, In h (sweep_heights min_height max_height interval) ->
                          (1 <= h <= 2 ^ 32)%Z).
  { intros h Hh. apply sweep_heights_In in Hh as (i & Hi & -> & Hlt);
      [nia | assumption]. }
  assert (Hcap : forall h, (1 <= h <= 2 ^ 32)%Z ->
            capacity_at_height area i_x i_y E fy h =
              Ok (phi_default * area * fy *
                  reduction area i_x i_y 1 1 E fy 1.34 (IZR h))).
  { intros h Hh. unfold capacity_at_height.
    apply capacity_in_box;
      first [assumption | apply in_box_one | apply shape_parameter_in_range
            | apply in_box_IZR; exact Hh]. }
  assert (Hc : 0 < 0.9 * area * fy)
    by (apply Rmult_lt_0_compat; [apply Rmult_lt_0_compat |]; lra).
  split; [| split].
  - refine (StronglySorted_weaken _ _ _ _ Hasc). intros a b Hab. lia.
  - assert (Hasc' : StronglySorted
                      (fun a b : Z => (1 <= a <= 2 ^ 32 /\ 1 <= b <= 2 ^ 32 /\ a < b)%Z)
                      (sweep_heights min_height max_height interval)).
    { clear Hmap. induction Hasc as [| a l Hs IH Hall]; constructor.
      - apply IH. intros h Hh. apply Hin. right. exact Hh.
      - apply Forall_forall. intros b Hb.
        pose proof (proj1 (Forall_forall _ _) Hall b Hb) as Hab.
        cbv beta in Hab. apply list_elem_of_In in Hb.
        split; [apply Hin; left; reflexivity |].
        split; [apply Hin; right; exact Hb | lia]. }
    refine (Forall2_transfers_order _ _ _ _ _ _ Hmap Hasc').
    intros h h' y y' (Hh & Hh' & Hlt) Hy Hy'.
    rewrite Hcap in Hy, Hy' by assumption.
    injection Hy as <-. injection Hy' as <-.
    apply Rmult_le_compat_l.
    + unfold phi_default. lra.
    + apply reduction_antitone; try lra.
      * apply IZR_lt. lia.
      * apply IZR_le. lia.
  - apply Forall_forall. intros y Hy.
    apply list_elem_of_In in Hy.
    destruct (Forall2_In_r _ _ _ _ Hmap Hy) as (h & Hh & Hcapy).
    rewrite Hcap in Hcapy by (apply Hin; exact Hh). injection Hcapy as <-.
    pose proof (reduction_bounds area i_x i_y 1 1 E fy 1.34
                  ltac:(lra) (IZR h)) as [Hlo Hhi].
    unfold phi_default.
    split; [apply Rmult_lt_0_compat; assumption |].
    rewrite <- (Rmult_1_r (0.9 * area * fy)) at 2.
    apply Rmult_le_compat_l; lra.
Qed.

Lemma sweep_curve_non_increasing_witness :
  exists x_values y_values,
    column_pr_over_height_range 200 30000 200 "Column A" 1000 200 100 200 350 =
      Ok (x_values, y_values) /\
    StronglySorted (fun a b : Z => (a < b)%Z) x_values /\
    StronglySorted (fun y y' : R => y' <= y) y_values /\
    Forall (fun y => 0 < y <= 0.9 * 1000 * 350) y_values.
Proof.
  apply (sweep_curve_non_increasing 200 30000 200 "Column A" 1000 200 100 200 350);
    first [lia | apply in_box_between; lra].
Defined.

(** The edge cases of the sweep, whatever the section parameters are: a
    step of zero is refused by [range] before anything is computed; an
    empty range ([max_height <= min_height] with a positive step, or
    [min_height <= max_height] with a negative one) returns two empty
    sequences without evaluating the formula; a range that starts at
    height 0 divides by zero at its first point. *)
Theorem sweep_edge_cases
    (min_height max_height interval : Z) (column_tag : string)
    (area i_x i_y E fy : R) :
  let call :=
    column_pr_over_height_range min_height max_height interval column_tag
      area i_x i_y E fy in
  (interval = 0%Z -> call = Raise ValueError) /\
  ((0 < interval)%Z -> (max_height <= min_height)%Z -> call = Ok ([], [])) /\
  ((interval < 0)%Z -> (min_height <= max_height)%Z -> call = Ok ([], [])) /\
  ((0 < interval)%Z -> min_height = 0%Z -> (0 < max_height)%Z ->
   call = Raise ZeroDivisionError).
Proof.
  intros call. unfold call. repeat apply conj.
  - intros ->. reflexivity.
  - intros Hstep Hle. unfold column_pr_over_height_range, py_range, range_length.
    destruct (Z.eqb_spec interval 0) as [-> | _]; [lia |].
    destruct (Z.ltb_spec 0 interval) as [_ | H]; [| lia].
    destruct (Z.ltb_spec min_height max_height) as [H | _]; [lia |].
    reflexivity.
  - intros Hstep Hle. unfold column_pr_over_height_range, py_range, range_length.
    destruct (Z.eqb_spec interval 0) as [-> | _]; [lia |].
    destruct (Z.ltb_spec 0 interval) as [H | _]; [lia |].
    destruct (Z.ltb_spec max_height min_height) as [H | _]; [lia |].
    reflexivity.
  - intros Hstep -> Hmax.
    rewrite column_pr_over_height_range_unfold.
    rewrite py_range_positive_step, bind_Ok by assumption.
    unfold sweep_heights.
    pose proof (ceil_div_spec (max_height - 0) interval Hstep) as Hc.
    destruct (Z.to_nat (Z.max 0 (ceil_div (max_height - 0) interval)))
      as [| count] eqn:Hcount; [nia |].
    cbn [seq map mapM].
    change (capacity_at_height area i_x i_y E fy (0 + Z.of_nat 0 * interval))
      with (factored_axial_capacity area i_x i_y 1 1 0 E fy 1.34 phi_default).
    unfold factored_axial_capacity.
    rewrite (eulerbucklingload_zero_length E i_x 1). reflexivity.
Qed.

Lemma sweep_edge_cases_witness :
  column_pr_over_height_range 0 30000 200 "Column A" 1000 200 100 200 350 =
    Raise ZeroDivisionError.
Proof.
  apply (sweep_edge_cases 0 30000 200 "Column A" 1000 200 100 200 350);
    reflexivity.
Defined.

Lemma sweep_first_height (min_height max_height interval : Z) :
  (0 < interval)%Z -> (min_height < max_height)%Z ->
  exists rest : list Z,
    sweep_heights min_height max_height interval = min_height :: rest.
Proof.
  intros Hstep Hlt. unfold sweep_heights.
  pose proof (ceil_div_spec (max_height - min_height) interval Hstep) as Hc.
  destruct (Z.to_nat (Z.max 0 (ceil_div (max_height - min_height) interval)))
    as [| count] eqn:Hcount; [nia |].
  cbn [seq map]. eexists. f_equal. lia.
Qed.

(** A sweep that starts at a height of magnitude [2^512] or more ends in
    [OverflowError] at its first point, whatever the section parameters
    are: the square of the height is beyond the float range. *)
Theorem sweep_overflows_at_huge_heights
    (min_height max_height interval : Z) (column_tag : string)
    (area i_x i_y E fy : R) :
  (0 < interval)%Z -> (min_height < max_height)%Z ->
  (2 ^ 512 <= Z.abs min_height)%Z ->
  column_pr_over_height_range min_height max_height interval column_tag
    area i_x i_y E fy = Raise OverflowError.
Proof.
  intros Hstep Hlt Hhuge.
  rewrite column_pr_over_height_range_unfold.
  rewrite py_range_positive_step, bind_Ok by assumption.
  destruct (sweep_first_height min_height max_height interval Hstep Hlt)
    as [rest ->].
  cbn [mapM].
  assert (Hfirst : capacity_at_height area i_x i_y E fy min_height =
                     Raise OverflowError).
  { unfold capacity_at_height, factored_axial_capacity.
    rewrite (eulerbucklingload_overflow E i_x 1 (IZR min_height));
      [reflexivity |].
    rewrite <- abs_IZR. apply IZR_le in Hhuge.
    rewrite (pow_IZR 2 512). exact Hhuge. }
  rewrite Hfirst. reflexivity.
Qed.

Lemma sweep_overflows_at_huge_heights_witness :
  column_pr_over_height_range (2 ^ 600) (2 ^ 600 + 1) 1 "Column A"
    1000 200 100 200 350 = Raise OverflowError.
Proof.
  apply (sweep_overflows_at_huge_heights (2 ^ 600) (2 ^ 600 + 1) 1 "Column A"
           1000 200 100 200 350).
  - reflexivity.
  - apply Z.lt_succ_diag_r.
  - apply Z.leb_le. vm_compute. reflexivity.
Defined.

(** ** Two columns on one grid *)

(** Both entries of the result of [compare_two_columns] carry the same
    list of heights, each with one resistance per height; two equal
    parameter sets give two equal entries. *)
Theorem compare_two_columns_shared_heights
    (min_height max_height interval : Z)
    (area_a i_x_a i_y_a E_a fy_a area_b i_x_b i_y_b E_b fy_b : R)
    (d : gmap string (list Z * list R)) :
  compare_two_columns min_height max_height interval
    area_a i_x_a i_y_a E_a fy_a area_b i_x_b i_y_b E_b fy_b = Ok d ->
  exists x_values y_values_a y_values_b,
    py_range min_height max_height interval = Ok x_values /\
    d !! "a" = Some (x_values, y_values_a) /\
    d !! "b" = Some (x_values, y_values_b) /\
    length y_values_a = length x_values /\
    length y_values_b = length x_values /\
    ((area_a, i_x_a, i_y_a, E_a, fy_a) = (area_b, i_x_b, i_y_b, E_b, fy_b) ->
     y_values_a = y_values_b).
Proof.
  rewrite compare_two_columns_unfold, !column_pr_over_height_range_unfold.
  destruct (py_range min_height max_height interval) as [xs | e];
    [| discriminate].
  rewrite !bind_Ok.
  destruct (mapM (capacity_at_height area_a i_x_a i_y_a E_a fy_a) xs)
    as [ya | e] eqn:Ha; [| discriminate].
  rewrite !bind_Ok.
  destruct (mapM (capacity_at_height area_b i_x_b i_y_b E_b fy_b) xs)
    as [yb | e] eqn:Hb; [| discriminate].
  rewrite !bind_Ok. intros [= <-].
  exists xs, ya, yb. split; [reflexivity |].
  destruct (two_entries_lookup (xs, ya) (xs, yb)) as (Hla & Hlb & _).
  split; [exact Hla |]. split; [exact Hlb |].
  split; [| split].
  - apply mapM_Ok_iff in Ha. symmetry. eapply Forall2_length. exact Ha.
  - apply mapM_Ok_iff in Hb. symmetry. eapply Forall2_length. exact Hb.
  - intros [= -> -> -> -> ->]. rewrite Ha in Hb. injection Hb as ->. reflexivity.
Qed.

Lemma compare_equal_columns_example :
  exists d : gmap string (list Z * list R),
    compare_two_columns 1 3 1 1 1 1 1 1 1 1 1 1 1 = Ok d.
Proof.
  destruct (sweep_returns_in_box 1 3 1 "Column A" 1 1 1 1 1)
    as [ya Ha]; [lia | lia | lia | apply in_box_one ..|].
  destruct (sweep_returns_in_box 1 3 1 "Column B" 1 1 1 1 1)
    as [yb Hb]; [lia | lia | lia | apply in_box_one ..|].
  eexists. rewrite compare_two_columns_unfold, Ha, Hb, !bind_Ok. reflexivity.
Qed.

Lemma compare_two_columns_shared_heights_witness :
  exists (d : gmap string (list Z * list R)) x_values y_values_a y_values_b,
    compare_two_columns 1 3 1 1 1 1 1 1 1 1 1 1 1 = Ok d /\
    py_range 1 3 1 = Ok x_values /\
    d !! "a" = Some (x_values, y_values_a) /\
    d !! "b" = Some (x_values, y_values_b) /\
    length y_values_a = length x_values /\
    length y_values_b = length x_values /\
    y_values_a = y_values_b.
Proof.
  destruct compare_equal_columns_example as [d Hd].
  destruct (compare_two_columns_shared_heights 1 3 1 1 1 1 1 1 1 1 1 1 1 d Hd)
    as (xs & ya & yb & Hr & Hla & Hlb & Hna & Hnb & Heq).
  exists d, xs, ya, yb.
  repeat (split; [assumption |]). apply Heq. reflexivity.
Defined.

(** A failure of either sweep is the failure of the comparison: the
    exception of column A comes first, and one failing column leaves no
    curve for the other.  With [area_a = 0] and a non-empty range of
    heights between [-2^32] and [2^32] the comparison ends in
    [ZeroDivisionError]. *)
Theorem compare_two_columns_failure
    (min_height max_height interval : Z)
    (area_a i_x_a i_y_a E_a fy_a area_b i_x_b i_y_b E_b fy_b : R) :
  let sweep_a :=
    column_pr_over_height_range min_height max_height interval
      "Column A" area_a i_x_a i_y_a E_a fy_a in
  let sweep_b :=
    column_pr_over_height_range min_height max_height interval
      "Column B" area_b i_x_b i_y_b E_b fy_b in
  let call :=
    compare_two_columns min_height max_height interval
      area_a i_x_a i_y_a E_a fy_a area_b i_x_b i_y_b E_b fy_b in
  (forall e, sweep_a = Raise e -> call = Raise e) /\
  (forall a e, sweep_a = Ok a -> sweep_b = Raise e -> call = Raise e) /\
  (forall e, call = Raise e -> sweep_a = Raise e \/ sweep_b = Raise e) /\
  ((0 < interval)%Z -> (min_height < max_height)%Z ->
   (- 2 ^ 32 <= min_height)%Z -> (max_height <= 2 ^ 32)%Z ->
   area_a = 0 -> call = Raise ZeroDivisionError).
Proof.
  intros sweep_a sweep_b call.
  assert (Hcall : call = (a ← sweep_a; b ← sweep_b;
                          Ok (<["b" := b]> (<["a" := a]> ∅)))).
  { apply compare_two_columns_unfold. }
  assert (Hzero : forall tag i_x i_y E fy,
            (0 < interval)%Z -> (min_height < max_height)%Z ->
            (Z.abs min_height <= 2 ^ 511)%Z ->
            column_pr_over_height_range min_height max_height interval tag
              0 i_x i_y E fy = Raise ZeroDivisionError).
  { intros tag i_x i_y E fy Hstep Hlt Hmin.
    rewrite column_pr_over_height_range_unfold.
    rewrite py_range_positive_step, bind_Ok by assumption.
    destruct (sweep_first_height min_height max_height interval Hstep Hlt)
      as [rest ->].
    cbn [mapM].
    assert (Hfirst : capacity_at_height 0 i_x i_y E fy min_height =
                       Raise ZeroDivisionError).
    { unfold capacity_at_height. apply capacity_zero_area.
      apply abs_below_overflow.
      apply (IZR_abs_bound min_height 511). exact Hmin. }
    rewrite Hfirst. reflexivity. }
  repeat apply conj.
  - intros e He. rewrite Hcall, He. reflexivity.
  - intros a e Ha He. rewrite Hcall, Ha, bind_Ok, He. reflexivity.
  - intros e. rewrite Hcall.
    destruct sweep_a as [a | ea]; [| intros [= <-]; left; reflexivity].
    rewrite bind_Ok.
    destruct sweep_b as [b | eb]; [discriminate |].
    intros [= <-]. right. reflexivity.
  - intros Hstep Hlt Hlo Hhi Harea. rewrite Hcall. unfold sweep_a.
    assert (Hmin : (Z.abs min_height <= 2 ^ 511)%Z).
    { apply Z.le_trans with (2 ^ 32)%Z; [lia |].
      apply Z.pow_le_mono_r; lia. }
    rewrite Harea, Hzero by assumption. reflexivity.
Qed.

Lemma compare_two_columns_failure_witness :
  compare_two_columns 200 30000 200 0 200 100 200 350 500 100 50 200 350 =
    Raise ZeroDivisionError.
Proof.
  apply (compare_two_columns_failure 200 30000 200 0 200 100 200 350
           500 100 50 200 350); try reflexivity; apply Z.leb_le; reflexivity.
Defined.

(** ** The demand/capacity ratio *)

(** A steel column whose properties lie between [2^-32] and [2^32]. *)
Definition steel_in_box (sc : SteelColumn.t) : Prop :=
  in_box (Column.area (SteelColumn.base sc)) /\
  in_box (Column.Ix (SteelColumn.base sc)) /\
  in_box (Column.Iy (SteelColumn.base sc)) /\
  in_box (Column.kx (SteelColumn.base sc)) /\
  in_box (Column.ky (SteelColumn.base sc)) /\
  in_box (Column.E (SteelColumn.base sc)) /\
  in_box (SteelColumn.fy sc).

Lemma steel_capacity_in_box (sc : SteelColumn.t) (n : R) :
  steel_in_box sc -> in_box (Column.height (SteelColumn.base sc)) ->
  1 <= n <= 4 ->
  SteelColumn.factored_axial_capacity sc n =
    Ok (phi_default * Column.area (SteelColumn.base sc) * SteelColumn.fy sc *
        reduction (Column.area (SteelColumn.base sc))
          (Column.Ix (SteelColumn.base sc)) (Column.Iy (SteelColumn.base sc))
          (Column.kx (SteelColumn.base sc)) (Column.ky (SteelColumn.base sc))
          (Column.E (SteelColumn.base sc)) (SteelColumn.fy sc) n
          (Column.height (SteelColumn.base sc))) /\
  0 < phi_default * Column.area (SteelColumn.base sc) * SteelColumn.fy sc *
      reduction (Column.area (SteelColumn.base sc))
        (Column.Ix (SteelColumn.base sc)) (Column.Iy (SteelColumn.base sc))
        (Column.kx (SteelColumn.base sc)) (Column.ky (SteelColumn.base sc))
        (Column.E (SteelColumn.base sc)) (SteelColumn.fy sc) n
        (Column.height (SteelColumn.base sc)).
Proof.
  intros (Ba & Bix & Biy & Bkx & Bky & BE & Bfy) Bh Hn.
  unfold SteelColumn.factored_axial_capacity.
  split; [apply capacity_in_box; assumption |].
  pose proof (reduction_bounds (Column.area (SteelColumn.base sc))
                (Column.Ix (SteelColumn.base sc)) (Column.Iy (SteelColumn.base sc))
                (Column.kx (SteelColumn.base sc)) (Column.ky (SteelColumn.base sc))
                (Column.E (SteelColumn.base sc)) (SteelColumn.fy sc) n
                ltac:(lra) (Column.height (SteelColumn.base sc))) as [Hlo _].
  pose proof (in_box_pos _ Ba). pose proof (in_box_pos _ Bfy).
  unfold phi_default.
  apply Rmult_lt_0_compat; [| exact Hlo].
  apply Rmult_lt_0_compat; [apply Rmult_lt_0_compat |]; lra.
Qed.

(** For a steel column with properties between [2^-32] and [2^32] and
    [n] between 1 and 4 the capacity is positive, the ratio is defined,
    and it is at most 1 exactly when the factored load does not exceed
    the capacity. *)
Theorem factored_dcr_adequacy (sc : SteelColumn.t) (n : R) :
  steel_in_box sc -> in_box (Column.height (SteelColumn.base sc)) ->
  1 <= n <= 4 ->
  exists capacity dcr,
    SteelColumn.factored_axial_capacity sc n = Ok capacity /\
    0 < capacity /\
    SteelColumn.factored_dcr sc n = Ok dcr /\
    (dcr <= 1 <-> SteelColumn.factored_axial_load sc <= capacity).
Proof.
  intros Hbox Hh Hn.
  destruct (steel_capacity_in_box sc n Hbox Hh Hn) as [Hcap Hpos].
  set (cap := phi_default * _ * _ * _) in *.
  exists cap, (SteelColumn.factored_axial_load sc / cap).
  split; [exact Hcap |]. split; [exact Hpos |].
  split.
  { unfold SteelColumn.factored_dcr. cbv zeta.
    rewrite Hcap, bind_Ok. apply py_div_ok. lra. }
  split; intros H.
  - apply (Rmult_le_compat_r cap) in H; [| lra].
    unfold Rdiv in H. rewrite Rmult_assoc, Rinv_l, Rmult_1_r, Rmult_1_l in H by lra.
    exact H.
  - apply (Rmult_le_reg_r cap); [assumption |].
    unfold Rdiv. rewrite Rmult_assoc, Rinv_l, Rmult_1_r, Rmult_1_l by lra.
    exact H.
Qed.

Lemma unit_steel_column_in_box : steel_in_box (unit_steel_column 1).
Proof. repeat split; apply in_box_one. Qed.

Lemma factored_dcr_adequacy_witness :
  exists capacity dcr,
    SteelColumn.factored_axial_capacity (unit_steel_column 1) 1 = Ok capacity /\
    0 < capacity /\
    SteelColumn.factored_dcr (unit_steel_column 1) 1 = Ok dcr /\
    (dcr <= 1 <-> SteelColumn.factored_axial_load (unit_steel_column 1) <= capacity).
Proof.
  apply (factored_dcr_adequacy (unit_steel_column 1) 1);
    [apply unit_steel_column_in_box | apply in_box_one | lra].
Defined.

(** With a non-negative factored load, properties between [2^-32] and
    [2^32] and [n] between 1 and 4, the ratio does not decrease when the
    column gets longer. *)
Theorem factored_dcr_monotone_in_height (sc : SteelColumn.t) (n h1 h2 : R) :
  steel_in_box sc -> 1 <= n <= 4 ->
  0 <= SteelColumn.factored_axial_load sc ->
  in_box h1 -> in_box h2 -> h1 <= h2 ->
  exists dcr1 dcr2,
    SteelColumn.factored_dcr (SteelColumn.set_height sc h1) n = Ok dcr1 /\
    SteelColumn.factored_dcr (SteelColumn.set_height sc h2) n = Ok dcr2 /\
    dcr1 <= dcr2.
Proof.
  intros Hbox Hn Hload Bh1 Bh2 Hh.
  pose proof Hbox as (Ba & Bix & Biy & Bkx & Bky & BE & Bfy).
  destruct (steel_capacity_in_box (SteelColumn.set_height sc h1) n)
    as [Hc1 Hp1]; [exact Hbox | exact Bh1 | exact Hn |].
  destruct (steel_capacity_in_box (SteelColumn.set_height sc h2) n)
    as [Hc2 Hp2]; [exact Hbox | exact Bh2 | exact Hn |].
  cbn [SteelColumn.set_height Column.set_height SteelColumn.base
       SteelColumn.fy Column.area Column.Ix Column.Iy Column.kx Column.ky
       Column.E Column.height]
    in Hc1, Hc2, Hp1, Hp2.
  set (c1 := phi_default * _ * _ * reduction _ _ _ _ _ _ _ _ h1) in *.
  set (c2 := phi_default * _ * _ * reduction _ _ _ _ _ _ _ _ h2) in *.
  assert (Hle : c2 <= c1).
  { unfold c1, c2. apply Rmult_le_compat_l.
    - pose proof (in_box_pos _ Ba). pose proof (in_box_pos _ Bfy).
      unfold phi_default. apply Rlt_le.
      apply Rmult_lt_0_compat; [apply Rmult_lt_0_compat |]; lra.
    - apply reduction_antitone; try (apply in_box_pos; assumption); lra. }
  exists (SteelColumn.factored_axial_load sc / c1),
         (SteelColumn.factored_axial_load sc / c2).
  unfold SteelColumn.factored_dcr. cbv zeta.
  rewrite Hc1, Hc2, !bind_Ok.
  change (SteelColumn.factored_axial_load (SteelColumn.set_height sc h1))
    with (SteelColumn.factored_axial_load sc).
  change (SteelColumn.factored_axial_load (SteelColumn.set_height sc h2))
    with (SteelColumn.factored_axial_load sc).
  split; [apply py_div_ok; lra |]. split; [apply py_div_ok; lra |].
  unfold Rdiv. apply Rmult_le_compat_l; [assumption |].
  apply Rinv_le_contravar; assumption.
Qed.

Lemma factored_dcr_monotone_in_height_witness :
  exists dcr1 dcr2,
    SteelColumn.factored_dcr
      (SteelColumn.set_height (unit_steel_column 1) 1) 1 = Ok dcr1 /\
    SteelColumn.factored_dcr
      (SteelColumn.set_height (unit_steel_column 1) 2) 1 = Ok dcr2 /\
    dcr1 <= dcr2.
Proof.
  apply (factored_dcr_monotone_in_height (unit_steel_column 1) 1 1 2);
    [apply unit_steel_column_in_box | lra | | apply in_box_one
    | apply in_box_two | lra].
  change (0 <= max_factored_load (Load.mk 1 1 0 0 0)).
  rewrite max_factored_load_Rmax.
  eapply Rle_trans; [| apply Rmax_l]. eapply Rle_trans; [| apply Rmax_l].
  eapply Rle_trans; [| apply Rmax_l]. lra.
Defined.
